(** * WorldCupTicketSimulator: the quantitative engine, embedded and verified

    A shallow embedding of the computation core of
    [src/WorldCupTicketSimulator.jsx]: odds conversion, devigging, conditional
    stage odds, hedge carrying cost, the six scenarios, the Newton-Raphson IRR
    solver, the breakeven price and the sensitivity sweep.

    Numbers.  A JavaScript number is modelled by [num]: a real number or one
    of the three special values [+Infinity], [-Infinity], [NaN].  Arithmetic
    on finite values is exact real arithmetic (rounding and overflow of
    binary64 are not modelled), the special values follow IEEE 754 as
    JavaScript has them, and zero carries no sign (a division of a non-zero
    number by zero gives the infinity of the sign of the numerator).
    A property of an object that was never set reads as [undefined]; every
    such read in this code is used as a number, where [undefined] behaves as
    [NaN], so a missing entry is modelled by [NaN]. *)

From Stdlib Require Import Reals Lra Lia ZArith List Bool.
Import ListNotations.

Open Scope R_scope.

(** ** JavaScript numbers *)

Module JsNum.

Inductive num : Type :=
| Fin (x : R)
| PInf
| NInf
| NaN.

Definition Rltb (x y : R) : bool := if Rlt_dec x y then true else false.
Definition Rleb (x y : R) : bool := if Rle_dec x y then true else false.
Definition Reqb (x y : R) : bool := if Req_dec_T x y then true else false.

(** The infinity that has the sign of [x]; [NaN] for zero (as in [0 * Infinity]). *)
Definition inf_of_sign (x : R) : num :=
  if Rltb 0 x then PInf else if Rltb x 0 then NInf else NaN.

Definition neg (a : num) : num :=
  match a with
  | Fin x => Fin (- x)
  | PInf => NInf
  | NInf => PInf
  | NaN => NaN
  end.

Definition add (a b : num) : num :=
  match a, b with
  | NaN, _ | _, NaN => NaN
  | Fin x, Fin y => Fin (x + y)
  | PInf, NInf | NInf, PInf => NaN
  | PInf, _ | _, PInf => PInf
  | NInf, _ | _, NInf => NInf
  end.

Definition sub (a b : num) : num := add a (neg b).

Definition mul (a b : num) : num :=
  match a, b with
  | NaN, _ | _, NaN => NaN
  | Fin x, Fin y => Fin (x * y)
  | Fin x, PInf | PInf, Fin x => inf_of_sign x
  | Fin x, NInf | NInf, Fin x => inf_of_sign (- x)
  | PInf, PInf | NInf, NInf => PInf
  | PInf, NInf | NInf, PInf => NInf
  end.

Definition div (a b : num) : num :=
  match a, b with
  | NaN, _ | _, NaN => NaN
  | Fin x, Fin y => if Reqb y 0 then inf_of_sign x else Fin (x / y)
  | Fin _, (PInf | NInf) => Fin 0
  | PInf, Fin y => if Rltb y 0 then NInf else PInf
  | NInf, Fin y => if Rltb y 0 then PInf else NInf
  | (PInf | NInf), (PInf | NInf) => NaN
  end.

(** [Math.abs] *)
Definition abs (a : num) : num :=
  match a with
  | Fin x => Fin (Rabs x)
  | PInf | NInf => PInf
  | NaN => NaN
  end.

(** The comparisons [<], [<=], [>], [>=]: false as soon as one side is [NaN]. *)
Definition ltb (a b : num) : bool :=
  match a, b with
  | NaN, _ | _, NaN => false
  | Fin x, Fin y => Rltb x y
  | NInf, (Fin _ | PInf) => true
  | Fin _, PInf => true
  | _, _ => false
  end.

Definition leb (a b : num) : bool :=
  match a, b with
  | NaN, _ | _, NaN => false
  | Fin x, Fin y => Rleb x y
  | NInf, _ => true
  | _, PInf => true
  | _, _ => false
  end.

Definition gtb (a b : num) : bool := ltb b a.
Definition geb (a b : num) : bool := leb b a.

(** Truthiness of a number: [0] and [NaN] are falsy. *)
Definition truthy (a : num) : bool :=
  match a with
  | Fin x => negb (Reqb x 0)
  | PInf | NInf => true
  | NaN => false
  end.

(** [a || b] on numbers. *)
Definition or_else (a b : num) : num := if truthy a then a else b.

(** [Math.round]: the nearest integer, halves rounded towards [+Infinity]. *)
Definition round (a : num) : num :=
  match a with
  | Fin x => Fin (IZR (Zfloor (x + / 2)))
  | _ => a
  end.

(** Whether the real [y] is an integer, and whether it is an odd one. *)
Definition is_int (y : R) : bool := Reqb (IZR (Zfloor y)) y.
Definition is_odd_int (y : R) : bool := is_int y && Z.odd (Zfloor y).

(** [b ** y] for a finite base and a finite non-zero exponent. *)
Definition pow_fin (b y : R) : num :=
  if Rltb 0 b then Fin (Rpower b y)
  else if Reqb b 0 then (if Rltb 0 y then Fin 0 else PInf)
  else if is_int y
       then Fin (if Z.odd (Zfloor y) then - Rpower (- b) y else Rpower (- b) y)
       else NaN.

(** The exponentiation operator [b ** e] (ECMAScript [Number::exponentiate]). *)
Definition pow (b e : num) : num :=
  match e with
  | NaN => NaN
  | Fin y =>
      if Reqb y 0 then Fin 1
      else match b with
           | NaN => NaN
           | PInf => if Rltb 0 y then PInf else Fin 0
           | NInf => if Rltb 0 y
                     then (if is_odd_int y then NInf else PInf)
                     else Fin 0
           | Fin x => pow_fin x y
           end
  | PInf =>
      match b with
      | NaN => NaN
      | PInf | NInf => PInf
      | Fin x => if Rltb 1 (Rabs x) then PInf
                 else if Reqb (Rabs x) 1 then NaN else Fin 0
      end
  | NInf =>
      match b with
      | NaN => NaN
      | PInf | NInf => Fin 0
      | Fin x => if Rltb 1 (Rabs x) then Fin 0
                 else if Reqb (Rabs x) 1 then NaN else PInf
      end
  end.

(** The order [a <= b] as a proposition. *)
Definition le (a b : num) : Prop := leb a b = true.

End JsNum.

Import JsNum.

Coercion Fin : R >-> num.

Declare Scope js_scope.
Delimit Scope js_scope with js.
Bind Scope js_scope with num.
Infix "+" := add : js_scope.
Infix "-" := sub : js_scope.
Infix "*" := mul : js_scope.
Infix "/" := div : js_scope.
Infix "**" := pow (at level 30, right associativity) : js_scope.
Notation "- x" := (neg x) : js_scope.
Infix "<?" := ltb : js_scope.
Infix "<=?" := leb : js_scope.
Infix ">?" := gtb (at level 70) : js_scope.
Infix ">=?" := geb (at level 70) : js_scope.
Infix "||" := or_else : js_scope.

(** ** Outcomes and stages *)

(** [STAGES = ['Group', 'R32', 'R16', 'QF', 'SF']] *)
Inductive stage : Type := Group | R32 | R16 | QF | SF.

(** The keys of [ALL_OUTCOMES = [...STAGES, 'RunnerUp', 'Winner']]. *)
Inductive outcome : Type :=
| Stage (s : stage)
| RunnerUp
| Winner.

Coercion Stage : stage >-> outcome.

Definition STAGES : list stage := [Group; R32; R16; QF; SF].
Definition ALL_OUTCOMES : list outcome := map Stage STAGES ++ [RunnerUp; Winner].

Definition stage_eqb (a b : stage) : bool :=
  match a, b with
  | Group, Group | R32, R32 | R16, R16 | QF, QF | SF, SF => true
  | _, _ => false
  end.

Definition outcome_eqb (a b : outcome) : bool :=
  match a, b with
  | Stage s, Stage t => stage_eqb s t
  | RunnerUp, RunnerUp | Winner, Winner => true
  | _, _ => false
  end.

(** ** Odds conversion helpers *)

Definition americanToDecimal (am : num) : num :=
  if (am >=? 100)%js then (1 + am / 100)%js
  else if (am <=? -100)%js then (1 + 100 / abs am)%js
  else 1.

Definition decimalToAmerican (dec : num) : num :=
  if (dec >=? 2)%js then round ((dec - 1) * 100)%js
  else if (dec >? 1)%js then round (-100 / (dec - 1))%js
  else 0.

(** ** Inputs *)

(** The state of the simulator.  Every numeric input is a finite number (it
    comes from a number field or from parsed JSON, neither of which yields
    [NaN] or an infinity). *)
Record Config : Type := mkConfig {
  pricePerTicket : R;
  numTickets : R;
  resaleFeePercent : R;
  processingFeePercent : R;
  fixedTransactionCost : R;
  annualOpportunityCost : R;
  expectedResale : R;
  hedgeEnabled : bool;
  bettingOdds : outcome -> R;
  hedgeStakes : stage -> R
}.

(** Timing: when each hedge is placed and when proceeds are received. *)
Definition hedgeMonths (s : stage) : Z :=
  match s with
  | Group | R32 | R16 => 4
  | QF | SF => 5
  end.

Definition proceedsMonth : R := 5.5.

(** ** Objects used as maps *)

(** An object keyed by the outcome (or stage) names: a total function, where
    a key that was never written reads as [NaN]. *)
Definition empty_obj {K V : Type} (d : V) : K -> V := fun _ => d.

Definition outcome_set {V : Type} (o : outcome -> V) (k : outcome) (v : V) : outcome -> V :=
  fun k' => if outcome_eqb k' k then v else o k'.

Definition stage_set {V : Type} (o : stage -> V) (k : stage) (v : V) : stage -> V :=
  fun k' => if stage_eqb k' k then v else o k'.

(** An object keyed by month numbers.  [Object.entries] lists integer keys
    in ascending order, so the entries are kept sorted by key. *)
Definition monthObj : Type := list (Z * num).

Fixpoint month_get (o : monthObj) (m : Z) : num :=
  match o with
  | [] => NaN
  | (k, v) :: o' => if (k =? m)%Z then v else month_get o' m
  end.

Fixpoint month_set (o : monthObj) (m : Z) (v : num) : monthObj :=
  match o with
  | [] => [(m, v)]
  | (k, w) :: o' =>
      if (m =? k)%Z then (k, v) :: o'
      else if (m <? k)%Z then (m, v) :: (k, w) :: o'
      else (k, w) :: month_set o' m v
  end.

(** ** Derived probabilities from betting odds *)

Record OddsData : Type := mkOddsData {
  impliedProbs : outcome -> num;
  totalImplied : num;
  margin : num;
  fairProbs : outcome -> num
}.

Definition impliedProb (c : Config) (key : outcome) : num :=
  if (bettingOdds c key >? 0)%js then (1 / bettingOdds c key * 100)%js else 0.

Definition oddsData (c : Config) : OddsData :=
  let '(impliedProbs, totalImplied) :=
    fold_left
      (fun '(impliedProbs, totalImplied) key =>
         let ip := impliedProb c key in
         (outcome_set impliedProbs key ip, (totalImplied + ip)%js))
      ALL_OUTCOMES (empty_obj NaN, Fin 0) in
  let margin := (totalImplied - 100)%js in
  let fairProbs :=
    fold_left
      (fun fairProbs key =>
         outcome_set fairProbs key
           (if (totalImplied >? 0)%js
            then (impliedProbs key / totalImplied * 100)%js else 0))
      ALL_OUTCOMES (empty_obj NaN) in
  mkOddsData impliedProbs totalImplied margin fairProbs.

(** Derived elimination probabilities (fair, rescaled). *)
Definition elimProbs (c : Config) : stage -> num :=
  fold_left (fun ep s => stage_set ep s (fairProbs (oddsData c) (Stage s)))
    STAGES (empty_obj NaN).

(** ** Conditional probabilities and adjusted odds per stage *)

Record StageOdds : Type := mkStageOdds {
  condProb : num;
  fairOdds : num;
  adjustedOdds : num
}.

(** The body of the loop over [STAGES]: [data] and [cumProb] before the
    turn for stage [s], and after it. *)
Definition stageOddsStep (c : Config) (vigFactor : num)
  (acc : (stage -> StageOdds) * num) (s : stage) : (stage -> StageOdds) * num :=
  let '(data, cumProb) := acc in
  let survivalProb := ((100 - cumProb) / 100)%js in
  let condProb :=
    if (survivalProb >? 0)%js
    then (elimProbs c s / 100 / survivalProb)%js else 0 in
  let fairOdds := if (condProb >? 0)%js then (1 / condProb)%js else PInf in
  let adjustedOdds := (fairOdds * vigFactor)%js in
  (stage_set data s (mkStageOdds condProb fairOdds adjustedOdds),
   (cumProb + elimProbs c s)%js).

Definition stageOdds (c : Config) : stage -> StageOdds :=
  let vigFactor :=
    if (totalImplied (oddsData c) >? 0)%js
    then (100 / totalImplied (oddsData c))%js else 1 in
  fst (fold_left (stageOddsStep c vigFactor) STAGES
         (empty_obj (mkStageOdds NaN NaN NaN), Fin 0)).

(** ** Calculated values *)

Definition totalPurchase (c : Config) : num :=
  (numTickets c * pricePerTicket c)%js.

Definition carryingCost (c : Config) : num :=
  (totalPurchase c *
   ((1 + annualOpportunityCost c / 100) ** (proceedsMonth / 12) - 1))%js.

Definition probFinals (c : Config) : num :=
  (fairProbs (oddsData c) RunnerUp + fairProbs (oddsData c) Winner)%js.

(** ** IRR solver *)

Record CashFlow : Type := mkCashFlow {
  month : num;
  amount : num
}.

Definition npv (cashFlows : list CashFlow) (r : num) : num :=
  fold_left (fun sum cf => (sum + amount cf / (1 + r) ** month cf)%js)
    cashFlows (Fin 0).

Definition dnpv (cashFlows : list CashFlow) (r : num) : num :=
  fold_left
    (fun sum cf => (sum + (- month cf * amount cf) / (1 + r) ** (month cf + 1))%js)
    cashFlows (Fin 0).

(** How the Newton loop is left: by [return -100] inside the loop, or by
    [break] / exhaustion of [maxIter] with the current rate [r]. *)
Inductive loopExit : Type :=
| Returned (v : num)
| Left (r : num).

(** The body of [for (let i = 0; i < maxIter; i++)], with [n] iterations to go. *)
Fixpoint newtonLoop (cashFlows : list CashFlow) (tol : num) (n : nat) (r : num)
  : loopExit :=
  match n with
  | O => Left r
  | S n' =>
      let f := npv cashFlows r in
      let df := dnpv cashFlows r in
      if (abs df <? 1e-14)%js then Left r
      else
        let rNew := (r - f / df)%js in
        if (abs (rNew - r) <? tol)%js then Left rNew
        else if (rNew <=? -1)%js then Returned (-100)
        else newtonLoop cashFlows tol n' rNew
  end.

Definition calculateIRRWith (cashFlows : list CashFlow) (maxIter : nat) (tol : num)
  : num :=
  match newtonLoop cashFlows tol maxIter 0.01 with
  | Returned v => v
  | Left r => (((1 + r) ** 12 - 1) * 100)%js
  end.

(** [calculateIRR(cashFlows)] with the default [maxIter = 100], [tol = 1e-8]. *)
Definition calculateIRR (cashFlows : list CashFlow) : num :=
  calculateIRRWith cashFlows 100 1e-8.

(** ** Carrying cost for hedge stakes, weighted by per-stage timing *)

Definition hedgeCarryCostPerStage (c : Config) (stages : list stage) : num :=
  if negb (hedgeEnabled c) then 0
  else
    fold_left
      (fun sum s =>
         let carryPeriod := (proceedsMonth - IZR (hedgeMonths s))%js in
         (sum + hedgeStakes c s *
                ((1 + annualOpportunityCost c / 100) ** (carryPeriod / 12) - 1))%js)
      stages (Fin 0).

(** ** The six scenarios *)

(** The [stage] entry of a scenario: a stage name, or ['Finals']. *)
Inductive scenarioStage : Type :=
| ElimAt (s : stage)
| Finals.

Record Scenario : Type := mkScenario {
  stageId : scenarioStage;
  probability : num;
  isFinals : bool;
  grossProceeds : num;
  netProceeds : num;
  resaleFee : num;
  processingFee : num;
  totalFees : num;
  hedgeResult : num;
  hCarryCost : num;
  totalStakePlaced : num;
  placedStages : list stage;
  netPL : num;
  roi : num
}.

(** [stages.reduce((sum, s) => sum + hedgeStakes[s], 0)] *)
Definition sumStakes (c : Config) (stages : list stage) : num :=
  fold_left (fun sum s => (sum + hedgeStakes c s)%js) stages (Fin 0).

(** The hedge outflows grouped by month, as pushed onto the cash flows. *)
Definition hedgeOutflows (c : Config) (stages : list stage) : list CashFlow :=
  let outflowByMonth :=
    fold_left
      (fun o s =>
         let m := hedgeMonths s in
         month_set o m ((month_get o m || 0) + hedgeStakes c s)%js)
      stages [] in
  map (fun '(m, amt) => mkCashFlow (IZR m) (- amt)%js) outflowByMonth.

(** One turn of the loop over the elimination stages, [i] the index in
    [STAGES]: the scenario pushed and the cash flows its IRR is solved on. *)
Definition elimIteration (c : Config) (i : nat) : Scenario * list CashFlow :=
  let elimStage := nth i STAGES Group in
  let placedStages := firstn (i + 1) STAGES in
  let totalStakePlaced :=
    if hedgeEnabled c then sumStakes c placedStages else 0 in
  let hCarryCost := hedgeCarryCostPerStage c placedStages in
  let winningStake : num := if hedgeEnabled c then hedgeStakes c elimStage else 0 in
  let winningOdds := adjustedOdds (stageOdds c elimStage) in
  let hedgeReturn := (winningStake * winningOdds)%js in
  let lostStakes := if hedgeEnabled c then sumStakes c (firstn i STAGES) else 0 in
  let hedgeResult :=
    if hedgeEnabled c then (winningStake * (winningOdds - 1) - lostStakes)%js else 0 in
  let grossProceeds := (pricePerTicket c * numTickets c)%js in
  let netPL :=
    (grossProceeds - totalPurchase c - carryingCost c - hCarryCost + hedgeResult)%js in
  let cashFlows :=
    [ mkCashFlow 0 (- totalPurchase c)%js;
      mkCashFlow proceedsMonth
        (grossProceeds + (if hedgeEnabled c then hedgeReturn else 0))%js ]
    ++ (if hedgeEnabled c then hedgeOutflows c placedStages else []) in
  (mkScenario (ElimAt elimStage) (elimProbs c elimStage) false
     grossProceeds grossProceeds 0 0 0
     hedgeResult hCarryCost totalStakePlaced placedStages netPL
     (calculateIRR cashFlows),
   cashFlows).

Definition elimScenario (c : Config) (i : nat) : Scenario := fst (elimIteration c i).
Definition elimCashFlows (c : Config) (i : nat) : list CashFlow := snd (elimIteration c i).

(** Finals scenario: all hedges placed and lost. *)
Definition finalsIteration (c : Config) : Scenario * list CashFlow :=
  let allStakes := if hedgeEnabled c then sumStakes c STAGES else 0 in
  let hCarryCostFinals := hedgeCarryCostPerStage c STAGES in
  let hedgeResultFinals := if hedgeEnabled c then (- allStakes)%js else 0 in
  let grossProceeds := (expectedResale c * numTickets c)%js in
  let resaleFee := (grossProceeds * (resaleFeePercent c / 100))%js in
  let processingFee := (grossProceeds * (processingFeePercent c / 100))%js in
  let totalFees := (resaleFee + processingFee + fixedTransactionCost c)%js in
  let netProceeds := (grossProceeds - totalFees)%js in
  let netPLFinals :=
    (netProceeds - totalPurchase c - carryingCost c - hCarryCostFinals
     + hedgeResultFinals)%js in
  let cashFlowsFinals :=
    [ mkCashFlow 0 (- totalPurchase c)%js;
      mkCashFlow proceedsMonth netProceeds ]
    ++ (if hedgeEnabled c then hedgeOutflows c STAGES else []) in
  (mkScenario Finals (probFinals c) true
     grossProceeds netProceeds resaleFee processingFee totalFees
     hedgeResultFinals hCarryCostFinals allStakes STAGES netPLFinals
     (calculateIRR cashFlowsFinals),
   cashFlowsFinals).

Definition finalsScenario (c : Config) : Scenario := fst (finalsIteration c).
Definition finalsCashFlows (c : Config) : list CashFlow := snd (finalsIteration c).

Definition scenarios (c : Config) : list Scenario :=
  map (elimScenario c) (seq 0 (length STAGES)) ++ [finalsScenario c].

(** The cash-flow timeline built for each scenario, in the order of [scenarios]. *)
Definition scenarioCashFlows (c : Config) : list (list CashFlow) :=
  map (elimCashFlows c) (seq 0 (length STAGES)) ++ [finalsCashFlows c].

(** ** Expected value *)

Definition expectedValue (c : Config) : num :=
  fold_left (fun sum s => (sum + probability s / 100 * netPL s)%js)
    (scenarios c) (Fin 0).

(** ** Breakeven: resale price in finals scenario where netPL = 0 *)

Definition breakEvenResale (c : Config) : num :=
  let netFeeRate := (1 - resaleFeePercent c / 100 - processingFeePercent c / 100)%js in
  let allStakes := if hedgeEnabled c then sumStakes c STAGES else 0 in
  let hcc := hedgeCarryCostPerStage c STAGES in
  let hedgeRes := if hedgeEnabled c then (- allStakes)%js else 0 in
  let targetNet := (totalPurchase c + carryingCost c + hcc - hedgeRes)%js in
  ((targetNet + fixedTransactionCost c) / (numTickets c * netFeeRate))%js.

(** ** Sensitivity: Finals P&L vs resale price *)

Module Point.
Record t : Type := mk {
  price : num;
  finals : num;
  expectedValue : num
}.
End Point.

(** The point pushed by the body of the sweep loop at [price]. *)
Definition sensitivityPoint (c : Config) (price : num) : Point.t :=
  let elimPL :=
    fold_left (fun sum s => (sum + probability s / 100 * netPL s)%js)
      (filter (fun s => negb (isFinals s)) (scenarios c)) (Fin 0) in
  let pFinals := (probFinals c / 100)%js in
  let allStakes := if hedgeEnabled c then sumStakes c STAGES else 0 in
  let hcc := hedgeCarryCostPerStage c STAGES in
  let hedgeRes := if hedgeEnabled c then (- allStakes)%js else 0 in
  let netFeeRate := (1 - resaleFeePercent c / 100 - processingFeePercent c / 100)%js in
  let gross := (price * numTickets c)%js in
  let np := (gross * netFeeRate - fixedTransactionCost c)%js in
  let finalsPL := (np - totalPurchase c - carryingCost c - hcc + hedgeRes)%js in
  let ev := (pFinals * finalsPL + elimPL)%js in
  Point.mk price finalsPL ev.

(** [for (let price = ...; price <= 30000; price += 500)], with [n] bounding
    the number of times the loop condition is tested. *)
Fixpoint sweepFrom (c : Config) (n : nat) (price : num) : list Point.t :=
  match n with
  | O => []
  | S n' =>
      if (price <=? 30000)%js
      then sensitivityPoint c price :: sweepFrom c n' (price + 500)%js
      else []
  end.

(** The sweep starts at 2000 and tests its condition 58 times: 57 points. *)
Definition sensitivityData (c : Config) : list Point.t := sweepFrom c 58 2000.

(** ** Notions used to state the properties *)

(** The integers that are valid in the American odds format. *)
Definition validAmerican (v : Z) : Prop := (100 <= v \/ v <= -100)%Z.

(** Displaying in the American format a value entered in that format. *)
Definition americanRoundTrip (v : Z) : num :=
  decimalToAmerican (americanToDecimal (IZR v)).

(** [a] is a finite number at most one unit away from the integer [v]. *)
Definition withinOneUnit (a : num) (v : Z) : Prop :=
  exists w : R, a = Fin w /\ Rabs (w - IZR v) <= 1.

(** ** Closed forms over the reals

    What the loops compute, written as real-valued expressions in the order
    in which the code adds the terms. *)

(** [impliedProbs[key]] *)
Definition implR (c : Config) (k : outcome) : R :=
  if Rltb 0 (bettingOdds c k) then 1 / bettingOdds c k * 100 else 0.

(** [totalImplied] *)
Definition totalR (c : Config) : R :=
  fold_left (fun t k => t + implR c k) ALL_OUTCOMES 0.

(** [fairProbs[key]] *)
Definition fairR (c : Config) (k : outcome) : R :=
  if Rltb 0 (totalR c) then implR c k / totalR c * 100 else 0.

(** The index of a stage in [STAGES]. *)
Definition stageIndex (s : stage) : nat :=
  match s with Group => 0 | R32 => 1 | R16 => 2 | QF => 3 | SF => 4 end.

(** [cumProb] at the start of the turn for stage [s]. *)
Definition cumR (c : Config) (s : stage) : R :=
  fold_left (fun t s' => t + fairR c (Stage s')) (firstn (stageIndex s) STAGES) 0.

(** [survivalProb], [condProb] and [vigFactor]. *)
Definition survR (c : Config) (s : stage) : R := (100 - cumR c s) / 100.

Definition condR (c : Config) (s : stage) : R :=
  if Rltb 0 (survR c s) then fairR c s / 100 / survR c s else 0.

Definition vigR (c : Config) : R :=
  if Rltb 0 (totalR c) then 100 / totalR c else 1.

(** [adjustedOdds]: finite, or [Infinity] when the conditional probability is zero. *)
Definition adjustedN (c : Config) (s : stage) : num :=
  if Rltb 0 (condR c s) then Fin (1 / condR c s * vigR c) else PInf.

(** [a] is a finite number within [tol] of [target]. *)
Definition withinTol (a : num) (target tol : R) : Prop :=
  exists x : R, a = Fin x /\ Rabs (x - target) <= tol.

(** The sum of the fair probabilities over the seven outcomes. *)
Definition fairProbSum (c : Config) : num :=
  fold_left (fun sum k => (sum + fairProbs (oddsData c) k)%js) ALL_OUTCOMES (Fin 0).

(** The sum of the probabilities attached to the six scenarios. *)
Definition scenarioProbSum (c : Config) : num :=
  fold_left (fun sum s => (sum + probability s)%js) (scenarios c) (Fin 0).

(** ** Concrete configurations *)

(** The [DEFAULTS] of the source. *)
Definition DEFAULTS : Config :=
  mkConfig 4185 2 15 3 0 6 10000 true
    (fun k => match k with
              | Stage Group => 31
              | Stage R32 => 4.3
              | Stage R16 => 4.0
              | Stage QF => 4.3
              | Stage SF => 5.5
              | RunnerUp => 9.0
              | Winner => 9.0
              end)
    (fun s => match s with
              | Group => 25
              | R32 => 300
              | R16 => 500
              | QF => 1200
              | SF => 3100
              end).

(** [c] with other betting odds. *)
Definition withOdds (c : Config) (odds : outcome -> R) : Config :=
  mkConfig (pricePerTicket c) (numTickets c) (resaleFeePercent c)
    (processingFeePercent c) (fixedTransactionCost c) (annualOpportunityCost c)
    (expectedResale c) (hedgeEnabled c) odds (hedgeStakes c).

(** A persisted state whose odds are all zero. *)
Definition zeroOdds : Config := withOdds DEFAULTS (fun _ => 0).





(** ** The elimination P&L as the specification words it *)

(** Full ticket reimbursement: purchase price per ticket times unit count. *)
Definition reimbursement (c : Config) : num :=
  (pricePerTicket c * numTickets c)%js.

(** The winning payout at stage index [i]: [stake_k * adjustedOdds_k]. *)
Definition winningPayout (c : Config) (i : nat) : num :=
  let k := nth i STAGES Group in
  (hedgeStakes c k * adjustedOdds (stageOdds c k))%js.

(** Net P&L with a hedge result of winning payout minus [forfeited]:
    reimbursement - purchase cost - base carrying cost - hedge carrying cost
    over the stages placed up to and including [i], plus the hedge result. *)
Definition netPLWith (c : Config) (i : nat) (forfeited : num) : num :=
  (reimbursement c - totalPurchase c - carryingCost c
   - hedgeCarryCostPerStage c (firstn (i + 1) STAGES)
   + (winningPayout c i - forfeited))%js.

(** All seven outcomes at decimal odds 7 (total implied probability 100, no
    margin), no opportunity cost, everything else as in [DEFAULTS]. *)
Definition evenOdds : Config :=
  mkConfig 4185 2 15 3 0 0 10000 true (fun _ => 7) (hedgeStakes DEFAULTS).

(** The growth factor [(1 + annualOpportunityCost / 100) ** y] of the
    carrying costs. *)
Definition growthN (c : Config) (y : R) : num :=
  ((1 + annualOpportunityCost c / 100) ** y)%js.

(** The carry period of a stake placed for stage [s], in years. *)
Definition carryYears (s : stage) : R := (proceedsMonth - IZR (hedgeMonths s)) / 12.

(** ** The degenerate cash-flow list *)

(** A single event at month 0, an outflow of 1000. *)
Definition singleOutflow : list CashFlow := [mkCashFlow 0 (-1000)].

(** The IRR solver's initial guess of 1% per month, annualised: about 12.68. *)
Definition annualisedGuess : R := ((1 + 0.01) ^ 12 - 1) * 100.

(** ** Breakeven: domain and dependencies *)

(** The fee rates sum to 100% or more: [netFeeRate] is zero or negative. *)
Definition feesAtLeast100 (c : Config) : Prop :=
  100 <= resaleFeePercent c + processingFeePercent c.

(** [netFeeRate = 1 - resaleFeePercent / 100 - processingFeePercent / 100] *)
Definition netFeeRateR (c : Config) : R :=
  1 - resaleFeePercent c / 100 - processingFeePercent c / 100.

(** The numerator [targetNet + fixedTransactionCost] of the breakeven price. *)
Definition breakEvenNumerator (c : Config) : num :=
  let allStakes := if hedgeEnabled c then sumStakes c STAGES else 0 in
  let hcc := hedgeCarryCostPerStage c STAGES in
  let hedgeRes := if hedgeEnabled c then (- allStakes)%js else 0 in
  (totalPurchase c + carryingCost c + hcc - hedgeRes + fixedTransactionCost c)%js.

(** A price that is an infinity or a negative number: what a division by a
    zero or negative [netFeeRate] computes when nothing reports the domain
    error. *)
Definition silentlyComputed (v : num) : Prop :=
  v = PInf \/ v = NInf \/ exists x : R, v = Fin x /\ x < 0.

(** [DEFAULTS] without opportunity cost and with the given fee percentages. *)
Definition withFees (resale processing : R) : Config :=
  mkConfig 4185 2 resale processing 0 0 10000 true
    (bettingOdds DEFAULTS) (hedgeStakes DEFAULTS).

(** Fees of 50% + 50% and of 60% + 50%. *)
Definition fees100 : Config := withFees 50 50.
Definition fees110 : Config := withFees 60 50.

(** [c] with another expected resale price. *)
Definition withExpectedResale (c : Config) (p : R) : Config :=
  mkConfig (pricePerTicket c) (numTickets c) (resaleFeePercent c)
    (processingFeePercent c) (fixedTransactionCost c) (annualOpportunityCost c)
    p (hedgeEnabled c) (bettingOdds c) (hedgeStakes c).

(** Two configurations that agree on every input but the expected resale price. *)
Definition sameExceptExpectedResale (c1 c2 : Config) : Prop :=
  pricePerTicket c1 = pricePerTicket c2 /\
  numTickets c1 = numTickets c2 /\
  resaleFeePercent c1 = resaleFeePercent c2 /\
  processingFeePercent c1 = processingFeePercent c2 /\
  fixedTransactionCost c1 = fixedTransactionCost c2 /\
  annualOpportunityCost c1 = annualOpportunityCost c2 /\
  hedgeEnabled c1 = hedgeEnabled c2 /\
  (forall k, bettingOdds c1 k = bettingOdds c2 k) /\
  (forall s, hedgeStakes c1 s = hedgeStakes c2 s).

(** ** The sensitivity sweep *)

(** The finals P&L does not decrease along the sweep: of any two points, the
    one at the lower price has the lower (or the same) finals P&L. *)
Definition finalsNonDecreasing (c : Config) : Prop :=
  forall pt1 pt2 : Point.t,
    In pt1 (sensitivityData c) -> In pt2 (sensitivityData c) ->
    le (Point.price pt1) (Point.price pt2) ->
    le (Point.finals pt1) (Point.finals pt2).

(** ** Base economics: purchase, reimbursement and resale without hedging *)

(** [c] with other hedge stakes. *)
Definition withStakes (c : Config) (stakes : stage -> R) : Config :=
  mkConfig (pricePerTicket c) (numTickets c) (resaleFeePercent c)
    (processingFeePercent c) (fixedTransactionCost c) (annualOpportunityCost c)
    (expectedResale c) (hedgeEnabled c) (bettingOdds c) stakes.

(** Net proceeds of the resale: gross proceeds minus the resale fee, the
    processing fee and the fixed transaction cost. *)
Definition resaleNetProceeds (c : Config) : num :=
  let gross := (expectedResale c * numTickets c)%js in
  (gross - (gross * (resaleFeePercent c / 100)
            + gross * (processingFeePercent c / 100)
            + fixedTransactionCost c))%js.

(** The proceeds received in each scenario, in the order of [scenarios]:
    the reimbursement on elimination, the net resale proceeds in the final. *)
Definition baseProceeds (c : Config) : list num :=
  map (fun _ => reimbursement c) (seq 0 (length STAGES)) ++ [resaleNetProceeds c].

(** The timeline of the base economics: the purchase outflow at month 0 and
    the proceeds inflow at the sale month. *)
Definition baseCashFlows (c : Config) (proceeds : num) : list CashFlow :=
  [ mkCashFlow 0 (- totalPurchase c)%js; mkCashFlow proceedsMonth proceeds ].

(** The net P&L of the base economics. *)
Definition baseNetPL (c : Config) (proceeds : num) : num :=
  (proceeds - totalPurchase c - carryingCost c)%js.

(** [DEFAULTS] with hedging switched off. *)
Definition unhedged : Config :=
  mkConfig 4185 2 15 3 0 6 10000 false (bettingOdds DEFAULTS) (hedgeStakes DEFAULTS).

(** [c] with the hedge switch set to [b]. *)
Definition withHedgeEnabled (c : Config) (b : bool) : Config :=
  mkConfig (pricePerTicket c) (numTickets c) (resaleFeePercent c)
    (processingFeePercent c) (fixedTransactionCost c) (annualOpportunityCost c)
    (expectedResale c) b (bettingOdds c) (hedgeStakes c).

(** The entries of a scenario that describe the ticket, not the hedge. *)
Definition ticketFields (s : Scenario)
  : scenarioStage * num * bool * num * num * num * num * num :=
  (stageId s, probability s, isFinals s, grossProceeds s, netProceeds s,
   resaleFee s, processingFee s, totalFees s).

(** A scenario without hedge: no hedge result, no hedge carrying cost, no stake. *)
Definition hedgeFree (s : Scenario) : Prop :=
  hedgeResult s = Fin 0 /\ hCarryCost s = Fin 0 /\ totalStakePlaced s = Fin 0.

(** ** Further notions: sign of a number *)

(** [a] is a finite number that is not negative. *)
Definition nonNegative (a : num) : Prop := exists x : R, a = Fin x /\ 0 <= x.

(** ** Further notions: the probability model *)

(** The probability of surviving every elimination stage, as the product of
    the per-stage survival probabilities [1 - condProb]. *)
Definition survivalProduct (c : Config) : num :=
  fold_left (fun acc s => (acc * (1 - condProb (stageOdds c s)))%js) STAGES (Fin 1).

(** ** Further notions: cash flows at month 0 *)

(** A timeline whose events all happen at month 0, with the given amounts. *)
Definition lumpSums (amounts : list R) : list CashFlow :=
  map (fun a : R => mkCashFlow 0 a) amounts.

(** ** Further notions: hedge outflows per placement month *)

(** The stakes among [stages] that are placed in month [m], added up in the
    order of the stages. *)
Definition monthStakes (c : Config) (stages : list stage) (m : Z) : R :=
  fold_left
    (fun t s => if (hedgeMonths s =? m)%Z then t + hedgeStakes c s else t)
    stages 0.

(** A cash-flow event with a finite month and a finite amount. *)
Definition finiteEvent (e : R * R) : CashFlow := mkCashFlow (Fin (fst e)) (Fin (snd e)).


(** ** Risk metrics *)

(** One step of [Math.min]: [NaN] as soon as a value is [NaN], otherwise the
    smaller of the lowest so far and the next value. *)
Definition minStep (lowest x : num) : num :=
  match lowest, x with
  | NaN, _ | _, NaN => NaN
  | _, _ => if (x <? lowest)%js then x else lowest
  end.

Definition maxStep (highest x : num) : num :=
  match highest, x with
  | NaN, _ | _, NaN => NaN
  | _, _ => if (highest <? x)%js then x else highest
  end.

(** [Math.min(...values)] and [Math.max(...values)]: [Infinity] and
    [-Infinity] on no value at all. *)
Definition mathMin (values : list num) : num := fold_left minStep values PInf.
Definition mathMax (values : list num) : num := fold_left maxStep values NInf.

Definition maxLoss (c : Config) : num := mathMin (map netPL (scenarios c)).
Definition maxGain (c : Config) : num := mathMax (map netPL (scenarios c)).

(** [a] is a finite number that is not positive. *)
Definition nonPositive (a : num) : Prop := exists x : R, a = Fin x /\ x <= 0.

(** [DEFAULTS] with an opportunity-cost rate of -150%. *)
Definition belowMinus100 : Config :=
  mkConfig 4185 2 15 3 0 (-150) 10000 true (bettingOdds DEFAULTS) (hedgeStakes DEFAULTS).

(** ** Entering and displaying odds *)

(** The display format: ['american'], or anything else, which is decimal. *)
Inductive oddsFormat : Type := decimalFormat | americanFormat.

(** [updateOdds(key, displayValue)] on the state [bettingOdds], where [val]
    is [Number(displayValue)]: the new state of the odds. *)
Definition updateOdds (format : oddsFormat) (bettingOdds : outcome -> num)
  (key : outcome) (val : num) : outcome -> num :=
  let decOdds :=
    match format with
    | americanFormat => americanToDecimal val
    | decimalFormat => val
    end in
  if (decOdds >? 1)%js then outcome_set bettingOdds key decOdds else bettingOdds.

(** [getDisplayOdds(key)] *)
Definition getDisplayOdds (format : oddsFormat) (bettingOdds : outcome -> num)
  (key : outcome) : num :=
  let dec := bettingOdds key in
  match format with
  | americanFormat => decimalToAmerican dec
  | decimalFormat => dec
  end.

(** Every outcome has odds above 1.0. *)
Definition validOdds (bettingOdds : outcome -> num) : Prop :=
  forall k : outcome, (bettingOdds k >? 1)%js = true.

(** The odds of a configuration, as the state that [updateOdds] works on. *)
Definition oddsState (c : Config) : outcome -> num := fun k => Fin (bettingOdds c k).

(** ** Expected IRR: the blended cash-flow timeline *)

(** [hedgeStakes[s.stage]] and [stageOdds[s.stage]?.adjustedOdds] for the
    [stage] entry of a scenario: both are [undefined] for ['Finals']. *)
Definition stakeOfScenario (c : Config) (s : Scenario) : num :=
  match stageId s with
  | ElimAt k => Fin (hedgeStakes c k)
  | Finals => NaN
  end.

Definition adjustedOddsOfScenario (c : Config) (s : Scenario) : num :=
  match stageId s with
  | ElimAt k => adjustedOdds (stageOdds c k)
  | Finals => NaN
  end.

(** One turn of the loop over the scenarios: the weighted inflow at the sale
    month and the weighted outflows by placement month, before and after. *)
Definition expectedROIStep (c : Config) (acc : num * monthObj) (s : Scenario)
  : num * monthObj :=
  let '(weightedEndInflow, weightedOutflowByMonth) := acc in
  let p := (probability s / 100)%js in
  let weightedEndInflow :=
    if isFinals s then (weightedEndInflow + p * netProceeds s)%js
    else
      let winStake : num := if hedgeEnabled c then stakeOfScenario c s else 0 in
      let winOdds := (adjustedOddsOfScenario c s || 0)%js in
      (weightedEndInflow
       + p * (grossProceeds s + (if hedgeEnabled c then winStake * winOdds else 0)))%js in
  let weightedOutflowByMonth :=
    if hedgeEnabled c
    then fold_left
           (fun o st =>
              let m := hedgeMonths st in
              month_set o m ((month_get o m || 0) + p * hedgeStakes c st)%js)
           (placedStages s) weightedOutflowByMonth
    else weightedOutflowByMonth in
  (weightedEndInflow, weightedOutflowByMonth).

(** The blended timeline that the expected IRR is solved on. *)
Definition expectedCashFlows (c : Config) : list CashFlow :=
  let '(weightedEndInflow, weightedOutflowByMonth) :=
    fold_left (expectedROIStep c) (scenarios c) (Fin 0, []) in
  [ mkCashFlow 0 (- totalPurchase c)%js;
    mkCashFlow proceedsMonth weightedEndInflow ]
  ++ map (fun '(m, amt) => mkCashFlow (IZR m) (- amt)%js) weightedOutflowByMonth.

Definition expectedROI (c : Config) : num := calculateIRR (expectedCashFlows c).

(** The probability-weighted NPV of the six scenario timelines at rate [r]. *)
Definition weightedNPV (c : Config) (r : num) : num :=
  fold_left
    (fun sum sc => (sum + probability (fst sc) / 100 * npv (snd sc) r)%js)
    (combine (scenarios c) (scenarioCashFlows c)) (Fin 0).

(** The discount factor [(1 + r) ** m] of a finite month at a finite rate
    above -1. *)
Definition discountR (r m : R) : R := if Reqb m 0 then 1 else Rpower (1 + r) m.

(** The discounted sum of finite events at rate [r]. *)
Definition eventSum (r : R) (l : list (R * R)) : R :=
  fold_right (fun e t => snd e / discountR r (fst e) + t) 0 l.

(** A month object whose amounts are all finite, and its discounted sum. *)
Definition finObj (l : list (Z * R)) : monthObj :=
  map (fun e => (fst e, Fin (snd e))) l.

Definition objSum (r : R) (l : list (Z * R)) : R :=
  fold_right (fun e t => snd e / discountR r (IZR (fst e)) + t) 0 l.

(** The keys of a month object are listed in strictly ascending order and
    all lie above [b]. *)
Fixpoint keysAbove (b : Z) (l : list (Z * R)) : Prop :=
  match l with
  | [] => True
  | e :: l' => (b < fst e)%Z /\ keysAbove (fst e) l'
  end.

(** The stakes of [stages], each discounted from its placement month. *)
Definition stakesSum (c : Config) (r : R) (stages : list stage) : R :=
  fold_right
    (fun s t => hedgeStakes c s / discountR r (IZR (hedgeMonths s)) + t) 0 stages.

(** [DEFAULTS] with the odds of the group stage set to 0. *)
Definition noGroupOdds : Config :=
  withOdds DEFAULTS (fun k => match k with
                              | Stage Group => 0
                              | _ => bettingOdds DEFAULTS k
                              end).

(** ** Distances from a boundary

    The embedding computes with exact reals, the program with binary64.  A
    property that turns on the sign of a quantity, or divides by it, is
    therefore stated at a distance from the point where the quantity
    vanishes, and a bound that is attained is stated with a slack: away from
    the boundary the two arithmetics agree. *)

(** The distance kept from fees of 100%: a hundredth of a percentage point. *)
Definition feeMargin : R := 1 / 100.

(** The fee percentages sum to more than 100, by the margin at least. *)
Definition feesAbove100 (c : Config) : Prop :=
  100 + feeMargin <= resaleFeePercent c + processingFeePercent c.

(** The fee percentages sum to less than 100, by the margin at least. *)
Definition feesBelow100 (c : Config) : Prop :=
  resaleFeePercent c + processingFeePercent c <= 100 - feeMargin.

(** The integers valid in the American format of at most a million in
    magnitude. *)
Definition ordinaryAmerican (v : Z) : Prop :=
  (100 <= v <= 1000000 \/ -1000000 <= v <= -100)%Z.

(** [a] is a finite number above 0, below 0. *)
Definition isPositive (a : num) : Prop := exists x : R, a = Fin x /\ 0 < x.
Definition isNegative (a : num) : Prop := exists x : R, a = Fin x /\ x < 0.


(** * Properties *)

(** ** Deciding comparisons of reals *)

Lemma Rltb_true (x y : R) : x < y -> Rltb x y = true.
Proof. intros H. unfold Rltb. destruct (Rlt_dec x y); [reflexivity | contradiction]. Qed.

Lemma Rltb_false (x y : R) : y <= x -> Rltb x y = false.
Proof. intros H. unfold Rltb. destruct (Rlt_dec x y); [lra | reflexivity]. Qed.

Lemma Rleb_true (x y : R) : x <= y -> Rleb x y = true.
Proof. intros H. unfold Rleb. destruct (Rle_dec x y); [reflexivity | contradiction]. Qed.

Lemma Rleb_false (x y : R) : y < x -> Rleb x y = false.
Proof. intros H. unfold Rleb. destruct (Rle_dec x y); [lra | reflexivity]. Qed.

Lemma Reqb_true (x y : R) : x = y -> Reqb x y = true.
Proof. intros H. unfold Reqb. destruct (Req_dec_T x y); [reflexivity | contradiction]. Qed.

Lemma Reqb_false (x y : R) : x <> y -> Reqb x y = false.
Proof. intros H. unfold Reqb. destruct (Req_dec_T x y); [contradiction | reflexivity]. Qed.

(** Settles every comparison of reals in the goal that [lra] can decide. *)
Ltac rdec :=
  repeat first
    [ rewrite Rltb_true by lra
    | rewrite Rltb_false by lra
    | rewrite Rleb_true by lra
    | rewrite Rleb_false by lra
    | rewrite Reqb_true by lra
    | rewrite Reqb_false by lra ].

Ltac js_unfold :=
  unfold gtb, geb, ltb, leb, sub, add, neg, mul, div, abs, inf_of_sign.

Lemma Zfloor_half (z : Z) : Zfloor (IZR z + / 2) = z.
Proof. apply Zfloor_eq. lra. Qed.

Lemma round_int (x : R) (z : Z) : x = IZR z -> round (Fin x) = Fin (IZR z).
Proof. intros ->. unfold round. now rewrite Zfloor_half. Qed.

(** ** Odds conversion *)

Lemma americanToDecimal_pos (v : R) :
  100 <= v -> americanToDecimal v = Fin (1 + v / 100).
Proof.
  intros H. unfold americanToDecimal. js_unfold. rdec. reflexivity.
Qed.

Lemma americanToDecimal_neg (v : R) :
  v <= -100 -> americanToDecimal v = Fin (1 + 100 / - v).
Proof.
  intros H. unfold americanToDecimal. js_unfold. rdec.
  rewrite Rabs_left by lra. rdec. reflexivity.
Qed.

Lemma decimalToAmerican_ge_2 (d : R) (z : Z) :
  2 <= d -> (d - 1) * 100 = IZR z -> decimalToAmerican d = Fin (IZR z).
Proof.
  intros Hd Hz. unfold decimalToAmerican. js_unfold. rdec.
  apply round_int. lra.
Qed.

Lemma decimalToAmerican_lt_2 (d : R) (z : Z) :
  1 < d < 2 -> -100 / (d - 1) = IZR z -> decimalToAmerican d = Fin (IZR z).
Proof.
  intros Hd Hz. unfold decimalToAmerican. js_unfold. rdec.
  apply round_int. rewrite <- Hz. f_equal; lra.
Qed.

Lemma americanRoundTrip_pos (v : Z) :
  (100 <= v)%Z -> americanRoundTrip v = Fin (IZR v).
Proof.
  intros H. apply IZR_le in H. unfold americanRoundTrip.
  rewrite americanToDecimal_pos by exact H.
  apply decimalToAmerican_ge_2; lra.
Qed.

Lemma americanRoundTrip_neg (v : Z) :
  (v < -100)%Z -> americanRoundTrip v = Fin (IZR v).
Proof.
  intros H. apply IZR_lt in H. unfold americanRoundTrip.
  rewrite americanToDecimal_neg by lra.
  assert (H1 : 0 < 100 / - IZR v < 1).
  { split.
    - apply Rdiv_lt_0_compat; lra.
    - apply Rmult_lt_reg_r with (- IZR v); [lra|].
      unfold Rdiv. rewrite Rmult_assoc, Rinv_l by lra. lra. }
  apply decimalToAmerican_lt_2; [lra|].
  field. lra.
Qed.

Lemma americanRoundTrip_even_money : americanRoundTrip (-100) = Fin 100.
Proof.
  unfold americanRoundTrip. rewrite americanToDecimal_neg by lra.
  replace (- -100) with 100 by lra.
  apply (decimalToAmerican_ge_2 _ 100); lra.
Qed.

(** C4, as stated, fails at [-100]: the value entered as [-100] is decimal
    [2.0], which is displayed as [+100], two hundred units away. *)
Lemma american_round_trip_counterexample :
  validAmerican (-100) /\
  americanRoundTrip (-100) = Fin 100 /\
  ~ withinOneUnit (americanRoundTrip (-100)) (-100).
Proof.
  split; [right; lia|]. split; [exact americanRoundTrip_even_money|].
  rewrite americanRoundTrip_even_money. intros [w [Hw Hd]].
  injection Hw as <-. rewrite Rabs_right in Hd; lra.
Qed.

(** C4 (amended): for every integer [v] valid in the American format, of at
    most a million in magnitude and other than [-100], the round trip
    [decimalToAmerican (americanToDecimal v)] is within one unit of [v] (it
    is [v] itself); at [v = -100] it is [+100], the other encoding of even
    money. *)
Theorem american_round_trip (v : Z) :
  ordinaryAmerican v ->
  (v <> (-100)%Z ->
   americanRoundTrip v = Fin (IZR v) /\ withinOneUnit (americanRoundTrip v) v) /\
  (v = (-100)%Z -> americanRoundTrip v = Fin 100).
Proof.
  intros Hv. split.
  - intros Hne.
    assert (E : americanRoundTrip v = Fin (IZR v)).
    { destruct Hv as [Hv | Hv].
      - apply americanRoundTrip_pos. lia.
      - apply americanRoundTrip_neg. lia. }
    split; [exact E|]. exists (IZR v). split; [exact E|].
    rewrite Rminus_diag, Rabs_R0. lra.
  - intros ->. exact americanRoundTrip_even_money.
Qed.

Lemma american_round_trip_witness :
  americanRoundTrip (-250) = Fin (IZR (-250)) /\
  withinOneUnit (americanRoundTrip (-250)) (-250).
Proof.
  apply (american_round_trip (-250)).
  - right. lia.
  - lia.
Defined.

Lemma Rltb_spec (x y : R) : reflect (x < y) (Rltb x y).
Proof. unfold Rltb. destruct (Rlt_dec x y); constructor; assumption. Qed.

Lemma impliedProb_fin (c : Config) (k : outcome) :
  impliedProb c k = Fin (implR c k).
Proof.
  unfold impliedProb, implR. js_unfold.
  destruct (Rltb_spec 0 (bettingOdds c k)); [|reflexivity].
  rdec. reflexivity.
Qed.

(** Brings a fact that holds for every outcome into the context, once per
    outcome, for [lra]. *)
Ltac over_outcomes H :=
  pose proof (H (Stage Group)); pose proof (H (Stage R32));
  pose proof (H (Stage R16)); pose proof (H (Stage QF)); pose proof (H (Stage SF));
  pose proof (H RunnerUp); pose proof (H Winner).

Lemma implR_nonneg (c : Config) (k : outcome) : 0 <= implR c k.
Proof.
  unfold implR. destruct (Rltb_spec 0 (bettingOdds c k)); [|lra].
  apply Rmult_le_pos; [|lra]. apply Rlt_le, Rdiv_lt_0_compat; lra.
Qed.

Lemma implR_pos (c : Config) (k : outcome) : 0 < bettingOdds c k -> 0 < implR c k.
Proof.
  intros H. unfold implR. rdec.
  apply Rmult_lt_0_compat; [|lra]. apply Rdiv_lt_0_compat; lra.
Qed.

Lemma totalR_eq (c : Config) :
  totalR c = implR c Group + implR c R32 + implR c R16 + implR c QF + implR c SF
             + implR c RunnerUp + implR c Winner.
Proof. unfold totalR. cbn -[implR]. lra. Qed.

Lemma totalR_nonneg (c : Config) : 0 <= totalR c.
Proof.
  rewrite totalR_eq.
  over_outcomes (implR_nonneg c). lra.
Qed.

Lemma implR_le_total (c : Config) (k : outcome) : implR c k <= totalR c.
Proof.
  rewrite totalR_eq.
  over_outcomes (implR_nonneg c).
  destruct k as [[]| |]; lra.
Qed.


(** The first loop of [oddsData]: the implied probabilities and their total. *)
Lemma impliedLoop_closed (c : Config) :
  let L := fold_left
      (fun '(impliedProbs, totalImplied) key =>
         let ip := impliedProb c key in
         (outcome_set impliedProbs key ip, (totalImplied + ip)%js))
      ALL_OUTCOMES (empty_obj NaN, Fin 0) in
  (forall k, fst L k = Fin (implR c k)) /\ snd L = Fin (totalR c).
Proof.
  cbn [fold_left ALL_OUTCOMES STAGES map app fst snd]. split.
  - intros k. rewrite <- impliedProb_fin. destruct k as [[]| |]; reflexivity.
  - rewrite !impliedProb_fin. unfold totalR. reflexivity.
Qed.

Lemma oddsData_closed (c : Config) :
  (forall k, impliedProbs (oddsData c) k = Fin (implR c k)) /\
  totalImplied (oddsData c) = Fin (totalR c) /\
  margin (oddsData c) = Fin (totalR c - 100) /\
  (forall k, fairProbs (oddsData c) k = Fin (fairR c k)).
Proof.
  pose proof (impliedLoop_closed c) as H. unfold oddsData.
  cbv zeta in H.
  destruct (fold_left _ ALL_OUTCOMES (empty_obj NaN, Fin 0)) as [ip tot].
  cbn [fst snd] in H. destruct H as [Hip ->].
  cbn [impliedProbs totalImplied margin fairProbs].
  split; [exact Hip|]. split; [reflexivity|]. split; [reflexivity|].
  intros k. unfold fairR.
  cbn [fold_left ALL_OUTCOMES STAGES map app].
  assert (E : forall k', (if (totalR c >? 0)%js then (ip k' / totalR c * 100)%js else 0)
                    = Fin (if Rltb 0 (totalR c) then implR c k' / totalR c * 100 else 0)).
  { intros k'. rewrite Hip. js_unfold.
    destruct (Rltb_spec 0 (totalR c)); [|reflexivity]. rdec. reflexivity. }
  rewrite <- E.
  destruct k as [[]| |]; reflexivity.
Qed.

Lemma oddsData_totalImplied (c : Config) :
  totalImplied (oddsData c) = Fin (totalR c).
Proof. apply oddsData_closed. Qed.

Lemma oddsData_fairProbs (c : Config) (k : outcome) :
  fairProbs (oddsData c) k = Fin (fairR c k).
Proof. apply oddsData_closed. Qed.

Lemma totalImplied_gtb (c : Config) :
  (totalImplied (oddsData c) >? 0)%js = Rltb 0 (totalR c).
Proof. rewrite oddsData_totalImplied. reflexivity. Qed.

Lemma fairR_nonneg (c : Config) (k : outcome) : 0 <= fairR c k.
Proof.
  unfold fairR. destruct (Rltb_spec 0 (totalR c)); [|lra].
  apply Rmult_le_pos; [|lra].
  apply Rmult_le_pos; [apply implR_nonneg|]. apply Rlt_le, Rinv_0_lt_compat. lra.
Qed.

Lemma fairR_sum (c : Config) :
  0 < totalR c ->
  fairR c Group + fairR c R32 + fairR c R16 + fairR c QF + fairR c SF
  + fairR c RunnerUp + fairR c Winner = 100.
Proof.
  intros H. unfold fairR. rdec.
  pose proof (totalR_eq c) as E.
  set (T := totalR c) in *.
  replace (implR c Group / T * 100 + implR c R32 / T * 100 + implR c R16 / T * 100
           + implR c QF / T * 100 + implR c SF / T * 100
           + implR c RunnerUp / T * 100 + implR c Winner / T * 100)
    with ((implR c Group + implR c R32 + implR c R16 + implR c QF + implR c SF
           + implR c RunnerUp + implR c Winner) / T * 100) by (field; lra).
  rewrite <- E. field. lra.
Qed.

Lemma fairR_zero (c : Config) (k : outcome) : totalR c <= 0 -> fairR c k = 0.
Proof. intros H. unfold fairR. rdec. reflexivity. Qed.

Lemma elimProbs_closed (c : Config) (s : stage) :
  elimProbs c s = Fin (fairR c s).
Proof.
  rewrite <- oddsData_fairProbs. unfold elimProbs.
  cbn [fold_left STAGES]. destruct s; reflexivity.
Qed.

Lemma vigR_pos (c : Config) : 0 < vigR c.
Proof.
  unfold vigR. destruct (Rltb_spec 0 (totalR c)); [|lra].
  apply Rdiv_lt_0_compat; lra.
Qed.

Lemma vigFactor_closed (c : Config) :
  (if (totalImplied (oddsData c) >? 0)%js
   then (100 / totalImplied (oddsData c))%js else 1) = Fin (vigR c).
Proof.
  rewrite oddsData_totalImplied. unfold vigR. js_unfold.
  destruct (Rltb_spec 0 (totalR c)); [|reflexivity]. rdec. reflexivity.
Qed.

(** One turn of the stage loop, entered with a finite [cumProb]. *)
Lemma stageOddsStep_closed (c : Config) (data : stage -> StageOdds) (C : R) (s : stage) :
  stageOddsStep c (vigR c) (data, Fin C) s =
  (let cond := if Rltb 0 ((100 - C) / 100)
               then fairR c s / 100 / ((100 - C) / 100) else 0 in
   stage_set data s
     (mkStageOdds cond
        (if Rltb 0 cond then Fin (1 / cond) else PInf)
        (if Rltb 0 cond then Fin (1 / cond * vigR c) else PInf)),
   Fin (C + fairR c s)).
Proof.
  pose proof (vigR_pos c) as Hv.
  unfold stageOddsStep. rewrite elimProbs_closed. cbv zeta.
  f_equal. f_equal. js_unfold. unfold Rminus.
  rdec.
  destruct (Rltb_spec 0 ((100 + - C) / 100)) as [Hs|Hs].
  - rdec.
    set (cond := fairR c s / 100 / ((100 + - C) / 100)).
    destruct (Rltb_spec 0 cond); rdec; reflexivity.
  - rdec. reflexivity.
Qed.

Lemma stageOdds_closed (c : Config) (s : stage) :
  stageOdds c s =
  mkStageOdds (condR c s)
    (if Rltb 0 (condR c s) then Fin (1 / condR c s) else PInf)
    (adjustedN c s).
Proof.
  unfold stageOdds. rewrite vigFactor_closed.
  cbn [fold_left STAGES]. rewrite !stageOddsStep_closed. cbv zeta. cbn [fst].
  unfold adjustedN, condR, survR, cumR.
  destruct s; cbn [stage_set stage_eqb stageIndex firstn STAGES fold_left];
    reflexivity.
Qed.

(** ** Devigging *)

Lemma fairProbSum_closed (c : Config) :
  fairProbSum c =
  Fin (0 + fairR c Group + fairR c R32 + fairR c R16 + fairR c QF + fairR c SF
       + fairR c RunnerUp + fairR c Winner).
Proof.
  unfold fairProbSum. cbn [fold_left ALL_OUTCOMES STAGES map app].
  rewrite !oddsData_fairProbs. reflexivity.
Qed.

Lemma withinTol_exact (x target tol : R) :
  x = target -> 0 <= tol -> withinTol (Fin x) target tol.
Proof.
  intros -> Ht. exists target. split; [reflexivity|].
  rewrite Rminus_diag, Rabs_R0. exact Ht.
Qed.

Lemma DEFAULTS_totalR_pos : 0 < totalR DEFAULTS.
Proof.
  rewrite totalR_eq. unfold implR, DEFAULTS. cbn [bettingOdds]. rdec. lra.
Qed.

(** C6: whenever the total implied probability is positive, the fair
    probabilities of the seven outcomes sum to 100 within 1e-9 (in exact
    arithmetic the sum is 100 itself). *)
Theorem devig_fair_probs_sum (c : Config) :
  (totalImplied (oddsData c) >? 0)%js = true ->
  withinTol (fairProbSum c) 100 1e-9.
Proof.
  rewrite totalImplied_gtb. intros H.
  destruct (Rltb_spec 0 (totalR c)) as [HT|]; [|discriminate].
  rewrite fairProbSum_closed. apply withinTol_exact; [|lra].
  pose proof (fairR_sum c HT). lra.
Qed.

Lemma devig_fair_probs_sum_witness :
  withinTol (fairProbSum DEFAULTS) 100 1e-9.
Proof.
  apply (devig_fair_probs_sum DEFAULTS).
  rewrite totalImplied_gtb. apply Rltb_true. exact DEFAULTS_totalR_pos.
Defined.

(** Valid odds (all above 1.0) make the total implied probability positive. *)
Lemma valid_odds_totalImplied_pos (c : Config) :
  (forall k, 1 < bettingOdds c k) -> (totalImplied (oddsData c) >? 0)%js = true.
Proof.
  intros H. rewrite totalImplied_gtb. apply Rltb_true.
  rewrite totalR_eq.
  assert (P : forall k, 0 < implR c k).
  { intros k. apply implR_pos. specialize (H k). lra. }
  over_outcomes P. lra.
Qed.

(** ** Scenario probabilities *)

Lemma elimScenario_probability (c : Config) (i : nat) :
  probability (elimScenario c i) = elimProbs c (nth i STAGES Group).
Proof. reflexivity. Qed.

Lemma finalsScenario_probability (c : Config) :
  probability (finalsScenario c) = probFinals c.
Proof. reflexivity. Qed.

Lemma scenarioProbSum_closed (c : Config) :
  scenarioProbSum c =
  Fin (0 + fairR c Group + fairR c R32 + fairR c R16 + fairR c QF + fairR c SF
       + (fairR c RunnerUp + fairR c Winner)).
Proof.
  unfold scenarioProbSum, scenarios.
  cbn [map seq length STAGES app fold_left].
  rewrite !elimScenario_probability, finalsScenario_probability.
  cbn [nth STAGES]. unfold probFinals.
  rewrite !elimProbs_closed, !oddsData_fairProbs. reflexivity.
Qed.

(** C7, as stated, fails: with odds that are all zero every fair probability
    is 0, and so is the sum over the six scenarios. *)
Lemma scenario_probs_sum_counterexample :
  scenarioProbSum zeroOdds = Fin 0 /\ ~ withinTol (scenarioProbSum zeroOdds) 100 1e-9.
Proof.
  assert (E : scenarioProbSum zeroOdds = Fin 0).
  { rewrite scenarioProbSum_closed.
    assert (T : totalR zeroOdds <= 0).
    { rewrite totalR_eq. unfold implR, zeroOdds, withOdds. cbn [bettingOdds].
      rdec. lra. }
    rewrite !(fairR_zero _ _ T). f_equal. lra. }
  split; [exact E|]. rewrite E. intros [x [Hx Hd]].
  injection Hx as <-. rewrite Rabs_left in Hd; lra.
Qed.

(** C7 (amended): whenever the total implied probability is positive, the
    probabilities of the six scenarios sum to 100 within 1e-9. *)
Theorem scenario_probs_sum (c : Config) :
  (totalImplied (oddsData c) >? 0)%js = true ->
  withinTol (scenarioProbSum c) 100 1e-9.
Proof.
  rewrite totalImplied_gtb. intros H.
  destruct (Rltb_spec 0 (totalR c)) as [HT|]; [|discriminate].
  rewrite scenarioProbSum_closed. apply withinTol_exact; [|lra].
  pose proof (fairR_sum c HT). lra.
Qed.

Lemma scenario_probs_sum_witness :
  withinTol (scenarioProbSum DEFAULTS) 100 1e-9.
Proof.
  apply (scenario_probs_sum DEFAULTS).
  rewrite totalImplied_gtb. apply Rltb_true. exact DEFAULTS_totalR_pos.
Defined.

(** ** Conditional stage probabilities *)

Lemma stageOdds_condProb (c : Config) (s : stage) :
  condProb (stageOdds c s) = Fin (condR c s).
Proof. rewrite stageOdds_closed. reflexivity. Qed.

Lemma stageOdds_adjustedOdds (c : Config) (s : stage) :
  adjustedOdds (stageOdds c s) = adjustedN c s.
Proof. rewrite stageOdds_closed. reflexivity. Qed.

Lemma cumR_nonneg (c : Config) (s : stage) : 0 <= cumR c s.
Proof.
  over_outcomes (fairR_nonneg c).
  destruct s; unfold cumR; cbn [stageIndex firstn STAGES fold_left]; lra.
Qed.

Lemma condR_nonneg (c : Config) (s : stage) : 0 <= condR c s.
Proof.
  unfold condR. destruct (Rltb_spec 0 (survR c s)) as [Hs|]; [|lra].
  pose proof (fairR_nonneg c s).
  apply Rmult_le_pos; [lra|]. apply Rlt_le, Rinv_0_lt_compat, Hs.
Qed.


Lemma fairR_mono (c : Config) (j k : outcome) :
  0 < bettingOdds c k <= bettingOdds c j -> 0 < fairR c j <= fairR c k.
Proof.
  intros [Hk Hjk].
  assert (Hj : 0 < bettingOdds c j) by lra.
  pose proof (implR_pos c j Hj) as Pj.
  pose proof (implR_le_total c j) as Tj.
  assert (HT : 0 < totalR c) by lra.
  assert (Hi : implR c j <= implR c k).
  { unfold implR. rdec. apply Rmult_le_compat_r; [lra|].
    unfold Rdiv. apply Rmult_le_compat_l; [lra|].
    apply Rinv_le_contravar; lra. }
  unfold fairR. rdec.
  assert (Hinv : 0 < / totalR c) by (apply Rinv_0_lt_compat; lra).
  unfold Rdiv. split; nra.
Qed.






(** ** Sums of stakes and carrying costs *)

Lemma sumStakes_acc (c : Config) (l : list stage) (a : R) :
  fold_left (fun sum s => (sum + hedgeStakes c s)%js) l (Fin a) =
  Fin (fold_left (fun t s => t + hedgeStakes c s) l a).
Proof.
  revert a. induction l as [|s l IH]; intros a; [reflexivity|].
  cbn [fold_left]. apply IH.
Qed.

Lemma sumStakes_fin (c : Config) (l : list stage) :
  sumStakes c l = Fin (fold_left (fun t s => t + hedgeStakes c s) l 0).
Proof. apply sumStakes_acc. Qed.

Lemma firstn_succ_STAGES (i : nat) :
  (i < length STAGES)%nat ->
  firstn (i + 1) STAGES = firstn i STAGES ++ [nth i STAGES Group].
Proof.
  intros H. cbn [length STAGES] in H.
  do 5 (destruct i as [|i]; [reflexivity|]). lia.
Qed.

Lemma sumStakes_succ (c : Config) (i : nat) :
  (i < length STAGES)%nat ->
  exists l : R,
    sumStakes c (firstn i STAGES) = Fin l /\
    sumStakes c (firstn (i + 1) STAGES) = Fin (l + hedgeStakes c (nth i STAGES Group)).
Proof.
  intros H. rewrite (firstn_succ_STAGES i H), !sumStakes_fin.
  eexists. split; [reflexivity|].
  rewrite fold_left_app. reflexivity.
Qed.

Lemma Rpower_base_1 (y : R) : Rpower 1 y = 1.
Proof. unfold Rpower. rewrite ln_1, Rmult_0_r. apply exp_0. Qed.

(** The hedge result of the code, rewritten as payout minus every stake placed. *)
Lemma hedge_result_regroup (w l : R) (wo : num) :
  (wo = PInf \/ exists o, wo = Fin o) ->
  (Fin w * (wo - 1) - Fin l)%js = (Fin w * wo - Fin (l + w))%js.
Proof.
  intros [-> | [o ->]].
  - cbn. unfold inf_of_sign.
    destruct (Rltb 0 w); [reflexivity|]. destruct (Rltb w 0); reflexivity.
  - cbn. f_equal. ring.
Qed.

Lemma adjustedN_cases (c : Config) (s : stage) :
  adjustedN c s = PInf \/ exists o, adjustedN c s = Fin o.
Proof.
  unfold adjustedN. destruct (Rltb 0 (condR c s)); [right; eauto | left; reflexivity].
Qed.

(** ** Net P&L of the elimination scenarios *)

Lemma elimScenario_netPL (c : Config) (i : nat) :
  hedgeEnabled c = true ->
  netPL (elimScenario c i) =
  (reimbursement c - totalPurchase c - carryingCost c
   - hedgeCarryCostPerStage c (firstn (i + 1) STAGES)
   + (hedgeStakes c (nth i STAGES Group)
      * (adjustedOdds (stageOdds c (nth i STAGES Group)) - 1)
      - sumStakes c (firstn i STAGES)))%js.
Proof.
  intros H. unfold elimScenario, elimIteration. cbn [fst netPL].
  rewrite H. reflexivity.
Qed.
Lemma carryingCost_growth (c : Config) :
  carryingCost c = (totalPurchase c * (growthN c (proceedsMonth / 12) - 1))%js.
Proof.
  unfold carryingCost, growthN. do 3 f_equal.
  unfold div. rdec. reflexivity.
Qed.

Lemma hedgeCarry_acc (c : Config) (l : list stage) (a : num) :
  fold_left
    (fun sum s =>
       let carryPeriod := (proceedsMonth - IZR (hedgeMonths s))%js in
       (sum + hedgeStakes c s *
              ((1 + annualOpportunityCost c / 100) ** (carryPeriod / 12) - 1))%js)
    l a =
  fold_left
    (fun sum s => (sum + hedgeStakes c s * (growthN c (carryYears s) - 1))%js) l a.
Proof.
  revert a. induction l as [|s l IH]; intros a; [reflexivity|].
  cbn [fold_left]. rewrite IH. do 2 f_equal.
  unfold growthN, carryYears. cbv zeta. do 4 f_equal.
  unfold sub, neg, add, div. rdec. reflexivity.
Qed.

Lemma hedgeCarryCostPerStage_growth (c : Config) (l : list stage) :
  hedgeEnabled c = true ->
  hedgeCarryCostPerStage c l =
  fold_left
    (fun sum s => (sum + hedgeStakes c s * (growthN c (carryYears s) - 1))%js)
    l (Fin 0).
Proof.
  intros H. unfold hedgeCarryCostPerStage. rewrite H. cbn [negb].
  apply hedgeCarry_acc.
Qed.

Lemma hedgeCarryCostPerStage_disabled (c : Config) (l : list stage) :
  hedgeEnabled c = false -> hedgeCarryCostPerStage c l = Fin 0.
Proof. intros H. unfold hedgeCarryCostPerStage. rewrite H. reflexivity. Qed.

(** Without opportunity cost the growth factor is 1 and nothing is carried. *)
Lemma growthN_rate0 (c : Config) (y : R) :
  annualOpportunityCost c = 0 -> growthN c y = Fin 1.
Proof.
  intros H. unfold growthN. rewrite H. unfold add, div. rdec.
  replace (1 + 0 / 100) with 1 by lra.
  unfold pow. destruct (Reqb y 0); [reflexivity|].
  unfold pow_fin. rdec. now rewrite Rpower_base_1.
Qed.

Lemma carryingCost_rate0 (c : Config) :
  annualOpportunityCost c = 0 -> carryingCost c = Fin 0.
Proof.
  intros H. rewrite carryingCost_growth, growthN_rate0 by exact H.
  unfold totalPurchase. cbn. f_equal. ring.
Qed.

Lemma hedgeCarry_rate0_acc (c : Config) (l : list stage) :
  annualOpportunityCost c = 0 ->
  fold_left
    (fun sum s => (sum + hedgeStakes c s * (growthN c (carryYears s) - 1))%js)
    l (Fin 0) = Fin 0.
Proof.
  intros H. induction l as [|s l IH]; [reflexivity|].
  cbn [fold_left]. rewrite growthN_rate0 by exact H.
  replace (0 + hedgeStakes c s * (1 - 1))%js with (Fin 0); [exact IH|].
  cbn. f_equal. ring.
Qed.

Lemma hedgeCarryCostPerStage_rate0 (c : Config) (l : list stage) :
  annualOpportunityCost c = 0 -> hedgeCarryCostPerStage c l = Fin 0.
Proof.
  intros H. destruct (hedgeEnabled c) eqn:E.
  - rewrite hedgeCarryCostPerStage_growth by exact E. now apply hedgeCarry_rate0_acc.
  - now apply hedgeCarryCostPerStage_disabled.
Qed.

Lemma evenOdds_adjusted : adjustedN evenOdds Group = Fin 7.
Proof.
  assert (T : totalR evenOdds = 100).
  { rewrite totalR_eq. unfold implR, evenOdds. cbn [bettingOdds]. rdec. lra. }
  assert (G : fairR evenOdds Group = 100 / 7).
  { unfold fairR. rewrite T. unfold implR, evenOdds. cbn [bettingOdds]. rdec. lra. }
  assert (C : condR evenOdds Group = / 7).
  { unfold condR, survR, cumR. cbn [stageIndex firstn STAGES fold_left].
    rewrite G. rdec. lra. }
  unfold adjustedN, vigR. rewrite C, T. rdec. f_equal. lra.
Qed.

Lemma evenOdds_netPL :
  netPL (elimScenario evenOdds 0) = Fin 150 /\
  netPLWith evenOdds 0 (sumStakes evenOdds (firstn 0 STAGES)) = Fin 175.
Proof.
  split.
  - rewrite elimScenario_netPL by reflexivity.
    rewrite carryingCost_rate0, hedgeCarryCostPerStage_rate0 by reflexivity.
    rewrite stageOdds_adjustedOdds. cbn [nth STAGES]. rewrite evenOdds_adjusted.
    cbn. f_equal. lra.
  - unfold netPLWith, winningPayout.
    rewrite carryingCost_rate0, hedgeCarryCostPerStage_rate0 by reflexivity.
    rewrite stageOdds_adjustedOdds. cbn [nth STAGES]. rewrite evenOdds_adjusted.
    cbn. f_equal. lra.
Qed.

(** C1, as stated, fails: the hedge result of the code is the winning payout
    net of the winning stake itself.  With all odds at 7, no opportunity cost
    and the default stakes, elimination in the group stage pays 25 x 7 = 175
    on a stake of 25: the net P&L is 150, not 175. *)
Lemma elimination_netPL_counterexample :
  hedgeEnabled evenOdds = true /\
  netPL (elimScenario evenOdds 0)
  <> netPLWith evenOdds 0 (sumStakes evenOdds (firstn 0 STAGES)).
Proof.
  split; [reflexivity|].
  destruct evenOdds_netPL as [-> ->]. intros E. injection E as E. lra.
Qed.

(** C1 (amended): with hedging enabled, the net P&L of the scenario of
    elimination at stage [k] is full ticket reimbursement minus purchase
    cost, minus base carrying cost, minus hedge carrying cost over the stages
    placed up to and including [k], plus a hedge result equal to the winning
    payout [stake_k * adjustedOdds_k] minus the stakes of all stages placed
    up to and including [k] (the forfeited ones and the winning one). *)
Theorem elimination_netPL (c : Config) (i : nat) :
  hedgeEnabled c = true ->
  (i < length STAGES)%nat ->
  netPL (elimScenario c i) = netPLWith c i (sumStakes c (firstn (i + 1) STAGES)) /\
  hedgeResult (elimScenario c i) =
  (winningPayout c i - sumStakes c (firstn (i + 1) STAGES))%js.
Proof.
  intros He Hi.
  destruct (sumStakes_succ c i Hi) as [l [Hl Hl1]].
  assert (R : (hedgeStakes c (nth i STAGES Group)
               * (adjustedOdds (stageOdds c (nth i STAGES Group)) - 1)
               - sumStakes c (firstn i STAGES))%js
              = (winningPayout c i - sumStakes c (firstn (i + 1) STAGES))%js).
  { unfold winningPayout. cbv zeta. rewrite Hl, Hl1, stageOdds_adjustedOdds.
    apply hedge_result_regroup, adjustedN_cases. }
  split.
  - rewrite elimScenario_netPL by exact He. unfold netPLWith. now rewrite R.
  - rewrite <- R. unfold elimScenario, elimIteration. cbn [fst hedgeResult].
    rewrite He. reflexivity.
Qed.

Lemma elimination_netPL_witness :
  netPL (elimScenario DEFAULTS 2)
  = netPLWith DEFAULTS 2 (sumStakes DEFAULTS (firstn (2 + 1) STAGES)) /\
  hedgeResult (elimScenario DEFAULTS 2) =
  (winningPayout DEFAULTS 2 - sumStakes DEFAULTS (firstn (2 + 1) STAGES))%js.
Proof.
  apply (elimination_netPL DEFAULTS 2).
  - reflexivity.
  - cbn. lia.
Defined.

(** ** The IRR solver on a single event at month 0 *)

Lemma Rpower_nonzero (x y : R) : Rpower x y <> 0.
Proof. unfold Rpower. pose proof (exp_pos (y * ln x)). lra. Qed.

(** The derivative of the NPV of a single event at month 0 vanishes. *)
Lemma dnpv_single_month0 (a r : R) :
  0 < 1 + r -> dnpv [mkCashFlow 0 a] r = Fin 0.
Proof.
  intros Hr. unfold dnpv. cbn [fold_left month amount].
  unfold add, neg, mul, pow. rdec. unfold pow_fin. rdec.
  unfold div. rewrite Reqb_false by apply Rpower_nonzero.
  f_equal. unfold Rdiv. ring.
Qed.

(** The loop is left on its first turn, before any update of the rate. *)
Lemma newtonLoop_single_month0 (a : R) (tol : num) (n : nat) :
  newtonLoop [mkCashFlow 0 a] tol (S n) 0.01 = Left 0.01.
Proof.
  cbn [newtonLoop]. rewrite dnpv_single_month0 by lra.
  unfold abs, ltb. rewrite Rabs_R0. rdec. reflexivity.
Qed.

Lemma calculateIRR_single_month0 (a : R) :
  calculateIRR [mkCashFlow 0 a] = Fin annualisedGuess.
Proof.
  unfold calculateIRR, calculateIRRWith.
  rewrite newtonLoop_single_month0.
  unfold add, sub, neg, mul, pow. rdec. unfold pow_fin. rdec.
  replace 12 with (INR 12) by (simpl; lra).
  rewrite Rpower_pow by lra. reflexivity.
Qed.

Lemma annualisedGuess_bounds : 12.68 < annualisedGuess < 12.69.
Proof. unfold annualisedGuess. split; lra. Qed.

(** C2, as stated, fails: on the single outflow the solver does not return
    the sentinel -100 but the annualised initial guess, about +12.68. *)
Lemma irr_single_outflow_counterexample :
  calculateIRR singleOutflow <> Fin (-100).
Proof.
  unfold singleOutflow. rewrite calculateIRR_single_month0.
  pose proof annualisedGuess_bounds. intros E. injection E as E. lra.
Qed.

(** C2 (amended): on the single event (month 0, -1000) the solver raises no
    exception and leaves its loop on the first turn, whatever the iteration
    bound, because the derivative is zero; it returns the initial guess of 1%
    per month annualised, [(1.01 ^ 12 - 1) * 100], about 12.68, and not the
    -100 sentinel. *)
Theorem irr_single_outflow :
  calculateIRR singleOutflow = Fin annualisedGuess /\
  12.68 < annualisedGuess < 12.69 /\
  (forall (maxIter : nat) (tol : num),
      newtonLoop singleOutflow tol (S maxIter) 0.01 = Left 0.01).
Proof.
  split; [apply calculateIRR_single_month0|].
  split; [exact annualisedGuess_bounds|].
  intros maxIter tol. apply newtonLoop_single_month0.
Qed.

(** ** Breakeven *)

Lemma breakEvenResale_quotient (c : Config) :
  breakEvenResale c = (breakEvenNumerator c / Fin (numTickets c * netFeeRateR c))%js.
Proof.
  unfold breakEvenResale, breakEvenNumerator, netFeeRateR. cbv zeta.
  f_equal. unfold sub, neg, add, mul, div. rdec. reflexivity.
Qed.

(** The division, for a positive finite numerator. *)
Lemma breakEvenResale_cases (c : Config) (t : R) :
  breakEvenNumerator c = Fin t -> 0 < t ->
  (numTickets c * netFeeRateR c = 0 -> breakEvenResale c = PInf) /\
  (numTickets c * netFeeRateR c <> 0 ->
   breakEvenResale c = Fin (t / (numTickets c * netFeeRateR c))).
Proof.
  intros Ht Hpos. rewrite breakEvenResale_quotient, Ht. unfold div. split.
  - intros ->. rdec. unfold inf_of_sign. rdec. reflexivity.
  - intros Hne. rewrite Reqb_false by exact Hne. reflexivity.
Qed.

Lemma withFees_numerator (r p : R) :
  breakEvenNumerator (withFees r p) = Fin 13495.
Proof.
  unfold breakEvenNumerator.
  rewrite carryingCost_rate0, hedgeCarryCostPerStage_rate0 by reflexivity.
  rewrite sumStakes_fin. cbn. f_equal. lra.
Qed.

Lemma fees100_breakEven : breakEvenResale fees100 = PInf.
Proof.
  apply (breakEvenResale_cases fees100 13495 (withFees_numerator _ _)); [lra|].
  unfold netFeeRateR. cbn. lra.
Qed.

Lemma fees110_breakEven : breakEvenResale fees110 = Fin (-67475).
Proof.
  destruct (breakEvenResale_cases fees110 13495 (withFees_numerator _ _)) as [_ H];
    [lra|].
  rewrite H; unfold netFeeRateR; cbn; [f_equal|]; lra.
Qed.

(** C3, as stated, fails: nothing reports the domain error.  With fees of
    50% + 50% the breakeven price is computed as [Infinity], with fees of
    60% + 50% as the negative price -67475. *)
Lemma breakeven_undefined_counterexample :
  (feesAtLeast100 fees100 /\ silentlyComputed (breakEvenResale fees100)) /\
  (feesAtLeast100 fees110 /\ silentlyComputed (breakEvenResale fees110)).
Proof.
  split; (split; [unfold feesAtLeast100; cbn; lra|]).
  - left. exact fees100_breakEven.
  - right. right. exists (-67475). split; [exact fees110_breakEven | lra].
Qed.

(** C3 (amended): whenever the fee percentages sum to more than 100 (by a
    hundredth of a point at least), [breakEvenResale] performs the division
    all the same and returns its result as an ordinary number, with no error
    condition: for a positive ticket count and a positive numerator
    [targetNet + fixedTransactionCost], it is the negative quotient
    [numerator / (numTickets * netFeeRate)]. *)
Theorem breakeven_fees_above_100 (c : Config) (t : R) :
  feesAbove100 c ->
  0 < numTickets c ->
  breakEvenNumerator c = Fin t -> 0 < t ->
  silentlyComputed (breakEvenResale c) /\
  breakEvenResale c = Fin (t / (numTickets c * netFeeRateR c)) /\
  t / (numTickets c * netFeeRateR c) < 0.
Proof.
  intros Hf Hn Ht Hpos. unfold feesAbove100, feeMargin in Hf.
  destruct (breakEvenResale_cases c t Ht Hpos) as [_ H1].
  assert (Hd : numTickets c * netFeeRateR c < 0) by (unfold netFeeRateR; nra).
  assert (E : breakEvenResale c = Fin (t / (numTickets c * netFeeRateR c)))
    by (apply H1; lra).
  assert (N : t / (numTickets c * netFeeRateR c) < 0).
  { unfold Rdiv. apply Rmult_pos_neg; [exact Hpos|].
    apply Rinv_lt_0_compat, Hd. }
  split; [|split; assumption].
  right. right. eauto.
Qed.

Lemma breakeven_fees_above_100_witness :
  silentlyComputed (breakEvenResale fees110) /\
  breakEvenResale fees110 = Fin (13495 / (numTickets fees110 * netFeeRateR fees110)) /\
  13495 / (numTickets fees110 * netFeeRateR fees110) < 0.
Proof.
  apply (breakeven_fees_above_100 fees110 13495).
  - unfold feesAbove100, feeMargin. cbn. lra.
  - cbn. lra.
  - apply withFees_numerator.
  - lra.
Defined.

(** C10: two configurations that differ only in the expected resale price
    have the same breakeven resale price. *)
Theorem breakeven_ignores_expected_resale (c1 c2 : Config) :
  sameExceptExpectedResale c1 c2 ->
  breakEvenResale c1 = breakEvenResale c2.
Proof.
  destruct c1 as [p1 n1 r1 q1 f1 a1 e1 h1 o1 s1].
  destruct c2 as [p2 n2 r2 q2 f2 a2 e2 h2 o2 s2].
  unfold sameExceptExpectedResale. cbn.
  intros (-> & -> & -> & -> & -> & -> & -> & _ & Hs).
  unfold breakEvenResale, hedgeCarryCostPerStage, sumStakes, totalPurchase,
    carryingCost.
  cbn [fold_left STAGES pricePerTicket numTickets resaleFeePercent
         processingFeePercent fixedTransactionCost annualOpportunityCost
         hedgeEnabled hedgeStakes].
  rewrite !Hs. reflexivity.
Qed.

Lemma breakeven_ignores_expected_resale_witness :
  breakEvenResale DEFAULTS = breakEvenResale (withExpectedResale DEFAULTS 12345).
Proof.
  apply (breakeven_ignores_expected_resale DEFAULTS (withExpectedResale DEFAULTS 12345)).
  unfold sameExceptExpectedResale. cbn. repeat split; reflexivity.
Defined.

(** ** Carrying costs are numbers for rates of -100% and above *)

Lemma growthN_fin (c : Config) (y : R) :
  -100 <= annualOpportunityCost c -> 0 < y -> exists g : R, growthN c y = Fin g.
Proof.
  intros Hr Hy. unfold growthN, add, div. rdec. unfold pow. rdec.
  unfold pow_fin.
  destruct (Rltb_spec 0 (1 + annualOpportunityCost c / 100)); [eauto|].
  rewrite Reqb_true by lra. rdec. eauto.
Qed.

Lemma carryingCost_fin (c : Config) :
  -100 <= annualOpportunityCost c -> exists x : R, carryingCost c = Fin x.
Proof.
  intros Hr. rewrite carryingCost_growth.
  destruct (growthN_fin c (proceedsMonth / 12) Hr) as [g ->];
    [unfold proceedsMonth; lra|].
  cbn. eauto.
Qed.

Lemma carryYears_pos (s : stage) : 0 < carryYears s.
Proof. unfold carryYears, proceedsMonth. destruct s; cbn; lra. Qed.

Lemma hedgeCarry_fin_acc (c : Config) (l : list stage) (a : R) :
  -100 <= annualOpportunityCost c ->
  exists x : R,
    fold_left
      (fun sum s => (sum + hedgeStakes c s * (growthN c (carryYears s) - 1))%js)
      l (Fin a) = Fin x.
Proof.
  intros Hr. revert a. induction l as [|s l IH]; intros a; [cbn; eauto|].
  cbn [fold_left].
  destruct (growthN_fin c (carryYears s) Hr (carryYears_pos s)) as [g ->].
  cbn. apply IH.
Qed.

Lemma hedgeCarryCostPerStage_fin (c : Config) (l : list stage) :
  -100 <= annualOpportunityCost c ->
  exists x : R, hedgeCarryCostPerStage c l = Fin x.
Proof.
  intros Hr. destruct (hedgeEnabled c) eqn:E.
  - rewrite hedgeCarryCostPerStage_growth by exact E. now apply hedgeCarry_fin_acc.
  - rewrite hedgeCarryCostPerStage_disabled by exact E. eauto.
Qed.

(** ** Sensitivity *)

(** The finals P&L is an affine function of the swept price. *)
Lemma sensitivityPoint_finals (c : Config) :
  -100 <= annualOpportunityCost c ->
  exists K : R, forall p : R,
    Point.finals (sensitivityPoint c p) = Fin (p * (numTickets c * netFeeRateR c) + K).
Proof.
  intros Hr.
  destruct (carryingCost_fin c Hr) as [cc Hcc].
  destruct (hedgeCarryCostPerStage_fin c STAGES Hr) as [h Hh].
  assert (Hres : exists hr : R,
             (if hedgeEnabled c
              then (- (if hedgeEnabled c then sumStakes c STAGES else 0))%js
              else 0) = Fin hr).
  { destruct (hedgeEnabled c); [rewrite sumStakes_fin; cbn|]; eauto. }
  destruct Hres as [hr Hhr].
  exists (- fixedTransactionCost c - numTickets c * pricePerTicket c - cc - h + hr).
  intros p. unfold sensitivityPoint. cbn [Point.finals].
  rewrite Hcc, Hh, Hhr. unfold totalPurchase, netFeeRateR.
  unfold sub, neg, add, mul, div. rdec. f_equal. unfold Rdiv. ring.
Qed.

Lemma sweepFrom_points (c : Config) (n : nat) (p : R) (pt : Point.t) :
  In pt (sweepFrom c n p) -> exists q : R, pt = sensitivityPoint c q.
Proof.
  revert p. induction n as [|n IH]; intros p; cbn [sweepFrom]; [intros []|].
  destruct (p <=? 30000)%js; [|intros []].
  intros [<- | H]; [eauto|]. exact (IH (p + 500) H).
Qed.

(** Testing the loop condition more than 58 times changes nothing: the sweep
    has run to its end. *)
Lemma sweepFrom_enough (c : Config) (n k : nat) (p : R) :
  30000 < p + 500 * INR n ->
  sweepFrom c (n + k) p = sweepFrom c n p.
Proof.
  revert p. induction n as [|n IH]; intros p H.
  - cbn in H. destruct k; [reflexivity|]. cbn [Nat.add sweepFrom].
    unfold leb. rdec. reflexivity.
  - cbn [Nat.add sweepFrom]. destruct (p <=? 30000)%js; [|reflexivity].
    f_equal. apply (IH (p + 500)). rewrite S_INR in H. lra.
Qed.

Lemma sensitivityData_complete (c : Config) (k : nat) :
  sweepFrom c (58 + k) 2000 = sensitivityData c.
Proof. apply sweepFrom_enough. simpl. lra. Qed.

Lemma sensitivityData_length (c : Config) : length (sensitivityData c) = 57%nat.
Proof.
  unfold sensitivityData.
  do 57 (cbn [sweepFrom add]; unfold leb at 1; rewrite Rleb_true by lra;
         cbn [length]; f_equal).
  cbn [sweepFrom add]. unfold leb. rewrite Rleb_false by lra. reflexivity.
Qed.
Lemma Rleb_spec (x y : R) : reflect (x <= y) (Rleb x y).
Proof. unfold Rleb. destruct (Rle_dec x y); constructor; assumption. Qed.

Lemma le_Fin (x y : R) : le (Fin x) (Fin y) <-> x <= y.
Proof.
  unfold le, leb. destruct (Rleb_spec x y); split; intros; try easy; lra.
Qed.

Lemma sensitivityData_2000_2500 (c : Config) :
  In (sensitivityPoint c 2000) (sensitivityData c) /\
  In (sensitivityPoint c (Fin (2000 + 500))) (sensitivityData c).
Proof.
  unfold sensitivityData.
  cbn [sweepFrom add]. unfold leb. rewrite !Rleb_true by lra.
  split; [left; reflexivity | right; left; reflexivity].
Qed.

(** C8, as stated, fails: with fees of 60% + 50% the net fee rate is
    negative, and the finals P&L at 2000 is above the one at 2500. *)
Lemma sensitivity_monotone_counterexample : ~ finalsNonDecreasing fees110.
Proof.
  intros H.
  destruct (sensitivityData_2000_2500 fees110) as [I1 I2].
  assert (P : le (Point.price (sensitivityPoint fees110 2000))
                 (Point.price (sensitivityPoint fees110 (Fin (2000 + 500))))).
  { apply le_Fin. lra. }
  specialize (H _ _ I1 I2 P).
  destruct (sensitivityPoint_finals fees110) as [K HK]; [cbn; lra|].
  rewrite !HK in H. apply le_Fin in H.
  unfold netFeeRateR in H. cbn in H. lra.
Qed.

(** C8 (amended): with all inputs fixed, the finals P&L of the sweep is
    non-decreasing in the swept price whenever the ticket count is not
    negative, the fee percentages sum to less than 100 (by a hundredth of a
    point at least), so that [netFeeRate] is positive, and the
    opportunity-cost rate is at least -100%, so that the carrying costs are
    numbers. *)
Theorem sensitivity_finals_monotone (c : Config) :
  0 <= numTickets c ->
  feesBelow100 c ->
  -100 <= annualOpportunityCost c ->
  finalsNonDecreasing c.
Proof.
  intros Hn Hf Hr pt1 pt2 I1 I2 Hp. unfold feesBelow100, feeMargin in Hf.
  assert (Hrate : 0 < netFeeRateR c) by (unfold netFeeRateR; lra).
  assert (Hslope : 0 <= numTickets c * netFeeRateR c) by nra.
  apply sweepFrom_points in I1, I2.
  destruct I1 as [q1 ->], I2 as [q2 ->].
  destruct (sensitivityPoint_finals c Hr) as [K HK].
  rewrite !HK. apply le_Fin. apply le_Fin in Hp. nra.
Qed.

Lemma sensitivity_finals_monotone_witness : finalsNonDecreasing DEFAULTS.
Proof.
  apply (sensitivity_finals_monotone DEFAULTS).
  - cbn. lra.
  - unfold feesBelow100, feeMargin. cbn. lra.
  - cbn. lra.
Defined.

(** ** Hedging disabled *)

Lemma add_0_r (a : num) : (a + 0)%js = a.
Proof. destruct a; cbn; try reflexivity. f_equal. ring. Qed.

Lemma sub_0_r (a : num) : (a - 0)%js = a.
Proof. destruct a; cbn; try reflexivity. f_equal. ring. Qed.

Lemma scenarios_eq (c : Config) :
  scenarios c =
  [elimScenario c 0; elimScenario c 1; elimScenario c 2; elimScenario c 3;
   elimScenario c 4; finalsScenario c].
Proof. reflexivity. Qed.

Lemma scenarioCashFlows_eq (c : Config) :
  scenarioCashFlows c =
  [elimCashFlows c 0; elimCashFlows c 1; elimCashFlows c 2; elimCashFlows c 3;
   elimCashFlows c 4; finalsCashFlows c].
Proof. reflexivity. Qed.

Lemma unhedged_elim (c : Config) (i : nat) :
  hedgeEnabled c = false ->
  hedgeResult (elimScenario c i) = Fin 0 /\
  hCarryCost (elimScenario c i) = Fin 0 /\
  totalStakePlaced (elimScenario c i) = Fin 0 /\
  netPL (elimScenario c i) = baseNetPL c (reimbursement c) /\
  elimCashFlows c i = baseCashFlows c (reimbursement c).
Proof.
  intros H. unfold elimScenario, elimCashFlows, elimIteration.
  cbn [fst snd hedgeResult hCarryCost totalStakePlaced netPL].
  rewrite hedgeCarryCostPerStage_disabled by exact H. rewrite H.
  repeat split.
  - rewrite add_0_r, sub_0_r. reflexivity.
  - rewrite add_0_r. reflexivity.
Qed.

Lemma unhedged_finals (c : Config) :
  hedgeEnabled c = false ->
  hedgeResult (finalsScenario c) = Fin 0 /\
  hCarryCost (finalsScenario c) = Fin 0 /\
  totalStakePlaced (finalsScenario c) = Fin 0 /\
  netPL (finalsScenario c) = baseNetPL c (resaleNetProceeds c) /\
  finalsCashFlows c = baseCashFlows c (resaleNetProceeds c).
Proof.
  intros H. unfold finalsScenario, finalsCashFlows, finalsIteration.
  cbn [fst snd hedgeResult hCarryCost totalStakePlaced netPL].
  rewrite hedgeCarryCostPerStage_disabled by exact H. rewrite H.
  repeat split.
  rewrite add_0_r, sub_0_r. reflexivity.
Qed.

(** With hedging disabled the stakes are not read at all. *)
Lemma unhedged_frame (c : Config) (stakes : stage -> R) :
  hedgeEnabled c = false ->
  scenarios (withStakes c stakes) = scenarios c /\
  scenarioCashFlows (withStakes c stakes) = scenarioCashFlows c.
Proof.
  intros H. rewrite !scenarios_eq, !scenarioCashFlows_eq.
  unfold elimScenario, elimCashFlows, finalsScenario, finalsCashFlows,
    elimIteration, finalsIteration, hedgeCarryCostPerStage.
  cbn [hedgeEnabled withStakes]. rewrite H. cbn [negb fst snd].
  split; reflexivity.
Qed.
(** The [roi] entry of each scenario is the IRR of its cash-flow timeline. *)
Lemma scenarios_roi (c : Config) :
  map roi (scenarios c) = map calculateIRR (scenarioCashFlows c).
Proof. reflexivity. Qed.

Lemma ticketFields_hedge_switch (c : Config) (b : bool) :
  map ticketFields (scenarios (withHedgeEnabled c b)) = map ticketFields (scenarios c).
Proof. reflexivity. Qed.

(** C9: with hedging disabled, every one of the six scenarios has zero hedge
    result, zero hedge carrying cost and zero total stake placed; its
    cash-flow timeline is the purchase outflow at month 0 and the proceeds
    inflow at the sale month, nothing else; its net P&L is proceeds minus
    purchase cost minus base carrying cost and its IRR is solved on that
    timeline; the ticket entries are those computed with hedging enabled,
    and no result depends on the stakes. *)
Theorem hedge_disabled_base_economics (c : Config) :
  hedgeEnabled c = false ->
  Forall hedgeFree (scenarios c) /\
  scenarioCashFlows c = map (baseCashFlows c) (baseProceeds c) /\
  map netPL (scenarios c) = map (baseNetPL c) (baseProceeds c) /\
  map roi (scenarios c)
  = map (fun proceeds => calculateIRR (baseCashFlows c proceeds)) (baseProceeds c) /\
  map ticketFields (scenarios c)
  = map ticketFields (scenarios (withHedgeEnabled c true)) /\
  (forall stakes : stage -> R,
      scenarios (withStakes c stakes) = scenarios c /\
      scenarioCashFlows (withStakes c stakes) = scenarioCashFlows c).
Proof.
  intros H.
  pose proof (fun i => unhedged_elim c i H) as E.
  pose proof (unhedged_finals c H) as F.
  assert (CF : scenarioCashFlows c = map (baseCashFlows c) (baseProceeds c)).
  { rewrite scenarioCashFlows_eq. unfold baseProceeds.
    cbn [map seq length STAGES app].
    repeat (f_equal; [apply E|]). f_equal. apply F. }
  split; [|split; [exact CF|split; [|split; [|split]]]].
  - rewrite scenarios_eq. unfold hedgeFree.
    repeat (constructor; [first [ repeat split; apply E | repeat split; apply F ]|]).
    constructor.
  - rewrite scenarios_eq. unfold baseProceeds. cbn [map seq length STAGES app].
    repeat (f_equal; [apply E|]). f_equal. apply F.
  - rewrite scenarios_roi, CF. apply map_map.
  - symmetry. apply ticketFields_hedge_switch.
  - intros stakes. exact (unhedged_frame c stakes H).
Qed.

Lemma hedge_disabled_base_economics_witness :
  Forall hedgeFree (scenarios unhedged) /\
  scenarioCashFlows unhedged = map (baseCashFlows unhedged) (baseProceeds unhedged).
Proof.
  destruct (hedge_disabled_base_economics unhedged) as (H1 & H2 & _).
  - reflexivity.
  - split; assumption.
Defined.

(** * Further properties of the engine *)

(** ** Arithmetic of JavaScript numbers *)

Lemma add_comm (a b : num) : (a + b)%js = (b + a)%js.
Proof. destruct a, b; cbn; try reflexivity. f_equal. ring. Qed.

Lemma add_Fin_inv (a b : num) (t : R) :
  (a + b)%js = Fin t -> exists x y : R, a = Fin x /\ b = Fin y /\ t = x + y.
Proof.
  destruct a, b; cbn; intros H; try discriminate.
  injection H as <-. eauto.
Qed.

Lemma neg_Fin_inv (a : num) (t : R) :
  (- a)%js = Fin t -> exists x : R, a = Fin x /\ t = - x.
Proof. destruct a; cbn; intros H; try discriminate. injection H as <-. eauto. Qed.

Lemma sub_Fin_inv (a b : num) (t : R) :
  (a - b)%js = Fin t -> exists x y : R, a = Fin x /\ b = Fin y /\ t = x - y.
Proof.
  unfold sub. intros H. apply add_Fin_inv in H. destruct H as (x & y & -> & Hb & ->).
  apply neg_Fin_inv in Hb. destruct Hb as (z & -> & ->). exists x, z. split; [reflexivity|]. split; reflexivity.
Qed.

(** ** The finals scenario, the sweep and the breakeven price agree *)

(** Net proceeds computed by the sweep ([gross * netFeeRate - fixed]) and by
    the finals scenario ([gross - fees]) are the same number. *)
Lemma netProceeds_two_ways (c : Config) (p : R) :
  (p * numTickets c
   * (1 - resaleFeePercent c / 100 - processingFeePercent c / 100)
   - fixedTransactionCost c)%js
  = (p * numTickets c
     - (p * numTickets c * (resaleFeePercent c / 100)
        + p * numTickets c * (processingFeePercent c / 100)
        + fixedTransactionCost c))%js.
Proof.
  unfold sub, neg, add, mul, div. rdec. f_equal. unfold Rdiv. ring.
Qed.

Lemma sensitivityPoint_finals_is_netPL (c : Config) (p : R) :
  Point.finals (sensitivityPoint c p) = netPL (finalsScenario (withExpectedResale c p)).
Proof.
  unfold sensitivityPoint, finalsScenario, finalsIteration.
  cbn [Point.finals fst netPL]. cbv zeta.
  change (expectedResale (withExpectedResale c p)) with p.
  rewrite <- netProceeds_two_ways. reflexivity.
Qed.

(** The five elimination scenarios are built without reading the expected
    resale price. *)
Lemma elimScenario_ignores_resale (c : Config) (p : R) (i : nat) :
  elimScenario (withExpectedResale c p) i = elimScenario c i.
Proof. reflexivity. Qed.

Lemma probFinals_ignores_resale (c : Config) (p : R) :
  probFinals (withExpectedResale c p) = probFinals c.
Proof. reflexivity. Qed.

Lemma elim_part (c : Config) :
  filter (fun s => negb (isFinals s)) (scenarios c)
  = [elimScenario c 0; elimScenario c 1; elimScenario c 2; elimScenario c 3;
     elimScenario c 4].
Proof. reflexivity. Qed.

Lemma expectedValue_eq (c : Config) :
  expectedValue c =
  (fold_left (fun sum s => (sum + probability s / 100 * netPL s)%js)
     (filter (fun s => negb (isFinals s)) (scenarios c)) (Fin 0)
   + probFinals c / 100 * netPL (finalsScenario c))%js.
Proof.
  rewrite elim_part. unfold expectedValue. rewrite scenarios_eq.
  cbn [fold_left]. rewrite finalsScenario_probability. reflexivity.
Qed.

Lemma sensitivityPoint_ev (c : Config) (p : num) :
  Point.expectedValue (sensitivityPoint c p) =
  (probFinals c / 100 * Point.finals (sensitivityPoint c p)
   + fold_left (fun sum s => (sum + probability s / 100 * netPL s)%js)
       (filter (fun s => negb (isFinals s)) (scenarios c)) (Fin 0))%js.
Proof. unfold sensitivityPoint. cbn [Point.expectedValue Point.finals]. reflexivity. Qed.

Lemma sensitivityPoint_ev_is_expectedValue (c : Config) (p : R) :
  Point.expectedValue (sensitivityPoint c p) = expectedValue (withExpectedResale c p).
Proof.
  rewrite sensitivityPoint_ev, expectedValue_eq, !elim_part.
  rewrite !elimScenario_ignores_resale, probFinals_ignores_resale.
  rewrite <- sensitivityPoint_finals_is_netPL. apply add_comm.
Qed.
Lemma div_Fin_inv (a : num) (d b : R) :
  (a / Fin d)%js = Fin b -> d <> 0 /\ exists t : R, a = Fin t /\ b = t / d.
Proof.
  destruct a as [t| | |]; cbn.
  - unfold Reqb. destruct (Req_dec_T d 0) as [->|Hd].
    + unfold inf_of_sign. destruct (Rltb 0 t); [discriminate|].
      destruct (Rltb t 0); discriminate.
    + intros H. injection H as <-. eauto.
  - destruct (Rltb d 0); discriminate.
  - destruct (Rltb d 0); discriminate.
  - discriminate.
Qed.

(** A finite breakeven price comes from a finite numerator and a non-zero
    denominator. *)
Lemma breakEvenResale_Fin_inv (c : Config) (b : R) :
  breakEvenResale c = Fin b ->
  numTickets c * netFeeRateR c <> 0 /\
  exists t : R, breakEvenNumerator c = Fin t /\ b = t / (numTickets c * netFeeRateR c).
Proof. rewrite breakEvenResale_quotient. apply div_Fin_inv. Qed.

(** The finals P&L at resale price [p], for a finite breakeven numerator [t]. *)
Lemma finals_from_numerator (c : Config) (t p : R) :
  breakEvenNumerator c = Fin t ->
  Point.finals (sensitivityPoint c p) = Fin (p * (numTickets c * netFeeRateR c) - t).
Proof.
  unfold breakEvenNumerator, sensitivityPoint. cbv zeta. cbn [Point.finals].
  set (hcc := hedgeCarryCostPerStage c STAGES).
  set (hr := if hedgeEnabled c
             then (- (if hedgeEnabled c then sumStakes c STAGES else 0))%js else 0).
  intros H.
  apply add_Fin_inv in H. destruct H as (x1 & f & H & Hf & ->).
  injection Hf as <-.
  apply sub_Fin_inv in H. destruct H as (x2 & r & H & -> & ->).
  apply add_Fin_inv in H. destruct H as (x3 & h & H & -> & ->).
  apply add_Fin_inv in H. destruct H as (tp & cc & Htp & -> & ->).
  rewrite Htp. unfold netFeeRateR.
  unfold sub, neg, add, mul, div. rdec. f_equal. unfold Rdiv. ring.
Qed.

Lemma finals_from_breakeven (c : Config) (b p : R) :
  breakEvenResale c = Fin b ->
  Point.finals (sensitivityPoint c p) = Fin ((p - b) * (numTickets c * netFeeRateR c)).
Proof.
  intros H. apply breakEvenResale_Fin_inv in H. destruct H as (Hd & t & Ht & ->).
  rewrite (finals_from_numerator c t p Ht). f_equal. field.
  split; intros E; apply Hd; rewrite E; ring.
Qed.

Lemma withFees_breakEven (r q : R) :
  2 * (1 - r / 100 - q / 100) <> 0 ->
  breakEvenResale (withFees r q) = Fin (13495 / (2 * (1 - r / 100 - q / 100))).
Proof.
  intros H. rewrite breakEvenResale_quotient, withFees_numerator.
  unfold div, netFeeRateR. cbn [withFees numTickets resaleFeePercent processingFeePercent].
  rewrite Reqb_false by exact H. reflexivity.
Qed.

(** X1: whenever the breakeven resale price is a finite number and the net
    fee rate is at least one percent in magnitude, reselling at exactly that
    price makes the net P&L of the finals scenario zero. *)
Theorem breakeven_zeroes_finals_netPL (c : Config) (b : R) :
  1 / 100 <= Rabs (netFeeRateR c) ->
  breakEvenResale c = Fin b ->
  netPL (finalsScenario (withExpectedResale c b)) = Fin 0.
Proof.
  intros _ H. rewrite <- sensitivityPoint_finals_is_netPL.
  rewrite (finals_from_breakeven c b b H). f_equal. ring.
Qed.

Lemma breakeven_zeroes_finals_netPL_witness :
  netPL (finalsScenario
           (withExpectedResale (withFees 15 3) (13495 / (2 * (1 - 15 / 100 - 3 / 100)))))
  = Fin 0.
Proof.
  apply (breakeven_zeroes_finals_netPL (withFees 15 3)).
  - unfold netFeeRateR. cbn. rewrite Rabs_right; lra.
  - apply withFees_breakEven. lra.
Defined.

(** X2: the finals P&L that the sweep computes at a price is the net P&L of
    the finals scenario of the same configuration with that price as the
    expected resale price. *)
Theorem sweep_finals_matches_scenario (c : Config) (p : R) :
  Point.finals (sensitivityPoint c p) = netPL (finalsScenario (withExpectedResale c p)).
Proof. apply sensitivityPoint_finals_is_netPL. Qed.

(** X3: the expected value that the sweep computes at a price is the
    expected value over the six scenarios of the same configuration with that
    price as the expected resale price. *)
Theorem sweep_ev_matches_expectedValue (c : Config) (p : R) :
  Point.expectedValue (sensitivityPoint c p) = expectedValue (withExpectedResale c p).
Proof. apply sensitivityPoint_ev_is_expectedValue. Qed.

(** X4: when the breakeven price is finite, at least one ticket is held and
    the net fee rate is at least one percent, the finals P&L of the sweep at
    price [p] is [(p - breakeven) * numTickets * netFeeRate]: a profit at a
    price one unit or more above the breakeven price, a loss at a price one
    unit or more below it. *)
Theorem finals_sign_around_breakeven (c : Config) (b p : R) :
  breakEvenResale c = Fin b ->
  1 <= numTickets c ->
  1 / 100 <= netFeeRateR c ->
  Point.finals (sensitivityPoint c p) = Fin ((p - b) * (numTickets c * netFeeRateR c)) /\
  (b + 1 <= p -> isPositive (Point.finals (sensitivityPoint c p))) /\
  (p <= b - 1 -> isNegative (Point.finals (sensitivityPoint c p))).
Proof.
  intros H Hn Hf. rewrite (finals_from_breakeven c b p H).
  assert (Hs : 1 / 100 <= numTickets c * netFeeRateR c) by nra.
  split; [reflexivity|]. split; intros Hp; eexists; (split; [reflexivity|]); nra.
Qed.

Lemma finals_sign_around_breakeven_witness :
  Point.finals (sensitivityPoint (withFees 15 3) 10000)
  = Fin ((10000 - 13495 / (2 * (1 - 15 / 100 - 3 / 100)))
         * (numTickets (withFees 15 3) * netFeeRateR (withFees 15 3))) /\
  (13495 / (2 * (1 - 15 / 100 - 3 / 100)) + 1 <= 10000 ->
   isPositive (Point.finals (sensitivityPoint (withFees 15 3) 10000))) /\
  (10000 <= 13495 / (2 * (1 - 15 / 100 - 3 / 100)) - 1 ->
   isNegative (Point.finals (sensitivityPoint (withFees 15 3) 10000))).
Proof.
  apply (finals_sign_around_breakeven (withFees 15 3)).
  - apply withFees_breakEven. lra.
  - cbn. lra.
  - unfold netFeeRateR. cbn. lra.
Defined.

(** ** The probability model *)

Lemma fairR_le_100 (c : Config) (k : outcome) : fairR c k <= 100.
Proof.
  unfold fairR. destruct (Rltb_spec 0 (totalR c)) as [HT|]; [|lra].
  pose proof (implR_le_total c k) as Hk.
  apply Rmult_le_reg_r with (totalR c / 100); [lra|].
  replace (implR c k / totalR c * 100 * (totalR c / 100)) with (implR c k)
    by (field; lra).
  lra.
Qed.

Lemma fairR_invalid_odds (c : Config) (k : outcome) :
  bettingOdds c k <= 0 -> fairR c k = 0.
Proof.
  intros H. unfold fairR. destruct (Rltb 0 (totalR c)); [|reflexivity].
  unfold implR. rdec. unfold Rdiv. ring.
Qed.

(** X5: for every odds set, each fair probability is a number between 0 and
    100, and an outcome whose odds are zero or negative gets fair
    probability 0. *)
Theorem fair_probs_range (c : Config) (k : outcome) :
  exists f : R,
    fairProbs (oddsData c) k = Fin f /\ 0 <= f <= 100 /\
    (bettingOdds c k <= 0 -> f = 0).
Proof.
  exists (fairR c k). split; [apply oddsData_fairProbs|]. split.
  - split; [apply fairR_nonneg | apply fairR_le_100].
  - apply fairR_invalid_odds.
Qed.

(** X6: devigging reverses the order of the odds: an outcome with positive
    odds that are not longer than another outcome's gets a fair probability
    that is not smaller. *)
Theorem fair_probs_antitone (c : Config) (j k : outcome) :
  0 < bettingOdds c k <= bettingOdds c j ->
  le (fairProbs (oddsData c) j) (fairProbs (oddsData c) k).
Proof.
  intros H. rewrite !oddsData_fairProbs. apply le_Fin.
  apply (fairR_mono c j k H).
Qed.

Lemma fair_probs_antitone_witness :
  le (fairProbs (oddsData DEFAULTS) Group) (fairProbs (oddsData DEFAULTS) SF).
Proof.
  apply (fair_probs_antitone DEFAULTS Group SF). cbn. lra.
Defined.

(** The survivor pool before a stage holds at least the stage's own mass. *)
Lemma survR_bounds (c : Config) (s : stage) :
  0 < totalR c -> 0 <= fairR c s / 100 <= survR c s /\ survR c s <= 1.
Proof.
  intros HT. pose proof (fairR_sum c HT) as Hsum.
  over_outcomes (fairR_nonneg c).
  unfold survR, cumR.
  destruct s; cbn [stageIndex firstn STAGES fold_left]; lra.
Qed.



Lemma condR_pos_total (c : Config) (s : stage) : 0 < condR c s -> 0 < totalR c.
Proof.
  intros H. destruct (Rlt_dec 0 (totalR c)) as [HT|HT]; [exact HT|].
  exfalso. unfold condR in H. destruct (Rltb 0 (survR c s)); [|lra].
  rewrite fairR_zero in H by lra.
  replace (0 / 100 / survR c s) with 0 in H by (unfold Rdiv; ring). lra.
Qed.

Lemma condR_pos (c : Config) (s : stage) : 0 < bettingOdds c s -> 0 < condR c s.
Proof.
  intros H.
  pose proof (fairR_mono c s s (conj H (Rle_refl _))) as [Hf _].
  assert (HT : 0 < totalR c).
  { pose proof (implR_pos c s H). pose proof (implR_le_total c s). lra. }
  pose proof (survR_bounds c s HT) as [[_ B] _].
  unfold condR. rewrite Rltb_true by lra.
  apply Rdiv_lt_0_compat; lra.
Qed.

(** X8: for every odds set and stage, either the conditional elimination
    probability [p] is positive, and then the fair odds are [1 / p] and the
    adjusted odds are the fair odds times [100 / totalImplied]; or it is 0,
    and then the fair and the adjusted odds are both [Infinity]. *)
Theorem stage_odds_dichotomy (c : Config) (s : stage) :
  (exists p T : R,
      0 < p /\ 0 < T /\
      totalImplied (oddsData c) = Fin T /\
      condProb (stageOdds c s) = Fin p /\
      fairOdds (stageOdds c s) = Fin (1 / p) /\
      adjustedOdds (stageOdds c s) = Fin (1 / p * (100 / T)))
  \/ (condProb (stageOdds c s) = Fin 0 /\
      fairOdds (stageOdds c s) = PInf /\
      adjustedOdds (stageOdds c s) = PInf).
Proof.
  rewrite stageOdds_closed. cbn [condProb fairOdds adjustedOdds].
  unfold adjustedN.
  destruct (Rltb_spec 0 (condR c s)) as [Hp|Hp].
  - left. exists (condR c s), (totalR c).
    pose proof (condR_pos_total c s Hp) as HT.
    repeat split; try assumption; try apply oddsData_totalImplied.
    unfold vigR. rdec. reflexivity.
  - right. pose proof (condR_nonneg c s).
    repeat split. f_equal. lra.
Qed.




(** Surviving a stage multiplies the survivor pool by [1 - condProb]. *)
Lemma survival_step (c : Config) (s : stage) :
  0 < totalR c ->
  survR c s * (1 + - condR c s) = survR c s + - (fairR c s / 100).
Proof.
  intros HT. pose proof (survR_bounds c s HT) as [[B0 B1] _].
  unfold condR. destruct (Rltb_spec 0 (survR c s)) as [Hs|Hs].
  - field. lra.
  - replace (survR c s) with 0 by lra. lra.
Qed.

Lemma survivalProduct_closed (c : Config) :
  0 < totalR c ->
  survivalProduct c = Fin ((fairR c RunnerUp + fairR c Winner) / 100).
Proof.
  intros HT. unfold survivalProduct. cbn [fold_left STAGES].
  rewrite !stageOdds_condProb. unfold sub, neg, add, mul. f_equal.
  pose proof (fairR_sum c HT) as Hsum.
  pose proof (survival_step c Group HT) as H1.
  pose proof (survival_step c R32 HT) as H2.
  pose proof (survival_step c R16 HT) as H3.
  pose proof (survival_step c QF HT) as H4.
  pose proof (survival_step c SF HT) as H5.
  assert (S1 : survR c Group = 1).
  { unfold survR, cumR. cbn [stageIndex firstn STAGES fold_left]. lra. }
  assert (S2 : survR c Group + - (fairR c Group / 100) = survR c R32).
  { unfold survR, cumR. cbn [stageIndex firstn STAGES fold_left]. lra. }
  assert (S3 : survR c R32 + - (fairR c R32 / 100) = survR c R16).
  { unfold survR, cumR. cbn [stageIndex firstn STAGES fold_left]. lra. }
  assert (S4 : survR c R16 + - (fairR c R16 / 100) = survR c QF).
  { unfold survR, cumR. cbn [stageIndex firstn STAGES fold_left]. lra. }
  assert (S5 : survR c QF + - (fairR c QF / 100) = survR c SF).
  { unfold survR, cumR. cbn [stageIndex firstn STAGES fold_left]. lra. }
  assert (S6 : survR c SF + - (fairR c SF / 100)
               = (fairR c RunnerUp + fairR c Winner) / 100).
  { unfold survR, cumR. cbn [stageIndex firstn STAGES fold_left]. lra. }
  rewrite <- S1 at 1. rewrite H1, S2, H2, S3, H3, S4, H4, S5, H5, S6.
  reflexivity.
Qed.

(** X10: whenever the total implied probability is positive, surviving all
    five stages, computed as the product of the per-stage survival
    probabilities [1 - condProb], has the probability attached to the finals
    scenario (as a fraction of 100). *)
Theorem survival_product_is_probFinals (c : Config) :
  (totalImplied (oddsData c) >? 0)%js = true ->
  survivalProduct c = (probFinals c / 100)%js.
Proof.
  rewrite totalImplied_gtb. intros H.
  destruct (Rltb_spec 0 (totalR c)) as [HT|]; [|discriminate].
  rewrite (survivalProduct_closed c HT). unfold probFinals.
  rewrite !oddsData_fairProbs. unfold add, div. rdec. reflexivity.
Qed.

Lemma survival_product_is_probFinals_witness :
  survivalProduct DEFAULTS = (probFinals DEFAULTS / 100)%js.
Proof.
  apply (survival_product_is_probFinals DEFAULTS).
  rewrite totalImplied_gtb. apply Rltb_true. exact DEFAULTS_totalR_pos.
Defined.

(** Like [rdec], but looks at every comparison of the goal, not only at the
    first of each kind. *)
Ltac rdec_all :=
  repeat match goal with
    | |- context [Rltb ?a ?b] =>
        first [rewrite (Rltb_true a b) by lra | rewrite (Rltb_false a b) by lra]
    | |- context [Rleb ?a ?b] =>
        first [rewrite (Rleb_true a b) by lra | rewrite (Rleb_false a b) by lra]
    | |- context [Reqb ?a ?b] =>
        first [rewrite (Reqb_true a b) by lra | rewrite (Reqb_false a b) by lra]
    end.

(** ** The IRR solver *)

(** The loop returns from inside only with the sentinel. *)
Lemma newtonLoop_Returned (cashFlows : list CashFlow) (tol : num) (n : nat) (r v : num) :
  newtonLoop cashFlows tol n r = Returned v -> v = Fin (-100).
Proof.
  revert r. induction n as [|n IH]; intros r; cbn [newtonLoop]; [discriminate|].
  destruct (abs (dnpv cashFlows r) <? 1e-14)%js; [discriminate|].
  destruct (abs (r - npv cashFlows r / dnpv cashFlows r - r) <? tol)%js; [discriminate|].
  destruct (r - npv cashFlows r / dnpv cashFlows r <=? -1)%js.
  - intros H. injection H as <-. reflexivity.
  - apply IH.
Qed.

Lemma Rpower_pos (x y : R) : 0 < Rpower x y.
Proof. unfold Rpower. apply exp_pos. Qed.

Lemma Zfloor_12 : Zfloor 12 = 12%Z.
Proof. apply Zfloor_eq. lra. Qed.

(** A twelfth power is never a negative number. *)
Lemma pow_12_nonneg (b : num) (y : R) : (b ** 12)%js = Fin y -> 0 <= y.
Proof.
  unfold pow. rdec. destruct b as [x| | |].
  - unfold pow_fin, is_int. rewrite Zfloor_12. rdec_all. cbn [Z.odd].
    destruct (Rltb 0 x).
    + intros H. injection H as <-. apply Rlt_le, Rpower_pos.
    + destruct (Reqb x 0); intros H; injection H as <-;
        [lra | apply Rlt_le, Rpower_pos].
  - rdec. discriminate.
  - rdec. unfold is_odd_int. rewrite Zfloor_12. cbn [Z.odd].
    rewrite andb_false_r. discriminate.
  - discriminate.
Qed.

Lemma mul_Fin_inv_r (a : num) (k t : R) :
  (a * Fin k)%js = Fin t -> exists x : R, a = Fin x /\ t = x * k.
Proof.
  destruct a as [x| | |]; cbn.
  - intros H. injection H as <-. eauto.
  - unfold inf_of_sign. destruct (Rltb 0 k), (Rltb k 0); discriminate.
  - unfold inf_of_sign. destruct (Rltb 0 (- k)), (Rltb (- k) 0); discriminate.
  - discriminate.
Qed.

Lemma calculateIRRWith_lower_bound (cashFlows : list CashFlow) (maxIter : nat)
  (tol : num) (x : R) :
  calculateIRRWith cashFlows maxIter tol = Fin x -> -100 <= x.
Proof.
  unfold calculateIRRWith.
  destruct (newtonLoop cashFlows tol maxIter 0.01) as [v|r] eqn:E.
  - apply newtonLoop_Returned in E. subst v. intros H. injection H as <-. lra.
  - intros H. apply mul_Fin_inv_r in H. destruct H as (z & H & ->).
    apply sub_Fin_inv in H. destruct H as (y & o & H & Ho & ->).
    injection Ho as <-. apply pow_12_nonneg in H. lra.
Qed.

(** X11: whatever the cash flows, the iteration bound and the tolerance, a
    finite result of the IRR solver is never below -100 (percent). *)
Theorem irr_never_below_minus_100 (cashFlows : list CashFlow) (maxIter : nat)
  (tol : num) (x : R) :
  calculateIRRWith cashFlows maxIter tol = Fin x -> -100 <= x.
Proof. apply calculateIRRWith_lower_bound. Qed.

(** The derivative of the NPV vanishes when every event is at month 0. *)
Lemma dnpv_lumpSums_acc (amounts : list R) (r a : R) :
  0 < 1 + r ->
  fold_left
    (fun sum cf => (sum + (- month cf * amount cf) / (1 + r) ** (month cf + 1))%js)
    (lumpSums amounts) (Fin a) = Fin a.
Proof.
  intros Hr. revert a. induction amounts as [|x l IH]; intros a; [reflexivity|].
  cbn [lumpSums map fold_left month amount].
  replace (a + (- 0 * x) / (1 + r) ** (0 + 1))%js with (Fin a); [apply IH|].
  unfold add, neg, mul, pow. rdec. unfold pow_fin. rdec.
  unfold div. rewrite Reqb_false by apply Rpower_nonzero.
  f_equal. unfold Rdiv. ring.
Qed.

Lemma newtonLoop_lumpSums (amounts : list R) (tol : num) (n : nat) :
  newtonLoop (lumpSums amounts) tol n 0.01 = Left 0.01.
Proof.
  destruct n as [|n]; [reflexivity|]. cbn [newtonLoop].
  unfold dnpv. rewrite dnpv_lumpSums_acc by lra.
  unfold abs, ltb. rewrite Rabs_R0. rdec. reflexivity.
Qed.

Lemma annualise_guess : (((1 + 0.01) ** 12 - 1) * 100)%js = Fin annualisedGuess.
Proof.
  unfold add, sub, neg, mul, pow. rdec. unfold pow_fin. rdec.
  replace 12 with (INR 12) by (simpl; lra).
  rewrite Rpower_pow by lra. reflexivity.
Qed.

Lemma calculateIRRWith_lumpSums (amounts : list R) (maxIter : nat) (tol : num) :
  calculateIRRWith (lumpSums amounts) maxIter tol = Fin annualisedGuess.
Proof.
  unfold calculateIRRWith. rewrite newtonLoop_lumpSums. apply annualise_guess.
Qed.

Lemma irr_never_below_minus_100_witness : -100 <= annualisedGuess.
Proof.
  apply (irr_never_below_minus_100 (lumpSums [-1000]) 100 (Fin 1e-8) annualisedGuess).
  apply calculateIRRWith_lumpSums.
Defined.

(** X12: on a timeline whose events are all at month 0 (the empty timeline
    included), and on any timeline when [maxIter] is 0, the solver makes no
    Newton update and returns the annualised initial guess,
    [(1.01 ^ 12 - 1) * 100]. *)
Theorem irr_without_update :
  (forall (amounts : list R) (maxIter : nat) (tol : num),
      calculateIRRWith (lumpSums amounts) maxIter tol = Fin annualisedGuess) /\
  (forall (cashFlows : list CashFlow) (tol : num),
      calculateIRRWith cashFlows 0 tol = Fin annualisedGuess).
Proof.
  split.
  - apply calculateIRRWith_lumpSums.
  - intros cashFlows tol. unfold calculateIRRWith. cbn [newtonLoop].
    apply annualise_guess.
Qed.

(** ** Hedge outflows merged by month *)

Lemma or_else_Fin (v : R) : (Fin v || 0)%js = Fin v.
Proof.
  unfold or_else, truthy, Reqb. destruct (Req_dec_T v 0) as [->|]; reflexivity.
Qed.

Lemma or_else_NaN : (NaN || 0)%js = Fin 0.
Proof. reflexivity. Qed.

Ltac outflow_eval :=
  repeat (cbn [month_get month_set Z.eqb Z.ltb Z.compare Pos.eqb Pos.compare
                 Pos.compare_cont add neg map];
          rewrite ?or_else_NaN, ?or_else_Fin).

Lemma hedgeOutflows_placed (c : Config) (i : nat) :
  (i < length STAGES)%nat ->
  hedgeOutflows c (firstn (i + 1) STAGES) =
  mkCashFlow 4 (Fin (- monthStakes c (firstn (i + 1) STAGES) 4))
  :: (if (3 <=? i)%nat
      then [mkCashFlow 5 (Fin (- monthStakes c (firstn (i + 1) STAGES) 5))]
      else []).
Proof.
  intros Hi. cbn [length STAGES] in Hi.
  do 5 (destruct i as [|i];
        [unfold hedgeOutflows, monthStakes;
         cbn [firstn Nat.add STAGES fold_left hedgeMonths Nat.leb];
         outflow_eval; reflexivity|]).
  lia.
Qed.

Lemma monthStakes_total (c : Config) (i : nat) :
  (i < length STAGES)%nat ->
  exists total : R,
    sumStakes c (firstn (i + 1) STAGES) = Fin total /\
    monthStakes c (firstn (i + 1) STAGES) 4
    + monthStakes c (firstn (i + 1) STAGES) 5 = total.
Proof.
  intros Hi. cbn [length STAGES] in Hi. rewrite sumStakes_fin.
  eexists. split; [reflexivity|].
  do 5 (destruct i as [|i];
        [unfold monthStakes;
         cbn [firstn Nat.add STAGES fold_left hedgeMonths Z.eqb Pos.eqb]; lra|]).
  lia.
Qed.

(** X13: the hedge outflows of the stages placed up to and including stage
    index [i] are merged per placement month and listed in ascending month
    order: one event at month 4 with the stakes placed in month 4 and, from
    the quarter-final on, one event at month 5 with the stakes placed in
    month 5; together they carry exactly the total stake placed. *)
Theorem hedge_outflows_by_month (c : Config) (i : nat) :
  (i < length STAGES)%nat ->
  hedgeOutflows c (firstn (i + 1) STAGES) =
  mkCashFlow 4 (Fin (- monthStakes c (firstn (i + 1) STAGES) 4))
  :: (if (3 <=? i)%nat
      then [mkCashFlow 5 (Fin (- monthStakes c (firstn (i + 1) STAGES) 5))]
      else []) /\
  (exists total : R,
      sumStakes c (firstn (i + 1) STAGES) = Fin total /\
      monthStakes c (firstn (i + 1) STAGES) 4
      + monthStakes c (firstn (i + 1) STAGES) 5 = total).
Proof.
  intros Hi. split; [now apply hedgeOutflows_placed | now apply monthStakes_total].
Qed.

Lemma hedge_outflows_by_month_witness :
  hedgeOutflows DEFAULTS (firstn (3 + 1) STAGES) =
  [ mkCashFlow 4 (Fin (- monthStakes DEFAULTS (firstn (3 + 1) STAGES) 4));
    mkCashFlow 5 (Fin (- monthStakes DEFAULTS (firstn (3 + 1) STAGES) 5)) ].
Proof.
  apply (hedge_outflows_by_month DEFAULTS 3). cbn. lia.
Defined.
(** ** Net P&L and cash flows *)

Lemma Fin_inj (x y : R) : Fin x = Fin y -> x = y.
Proof. intros H. now injection H. Qed.





Lemma adjustedN_fin (c : Config) (s : stage) :
  0 < bettingOdds c s -> exists o : R, adjustedN c s = Fin o.
Proof.
  intros H. unfold adjustedN. rewrite Rltb_true by (now apply condR_pos). eauto.
Qed.


Lemma elimCashFlows_hedged (c : Config) (i : nat) :
  hedgeEnabled c = true ->
  elimCashFlows c i =
  [ mkCashFlow 0 (- totalPurchase c)%js;
    mkCashFlow proceedsMonth
      (pricePerTicket c * numTickets c
       + hedgeStakes c (nth i STAGES Group)
         * adjustedOdds (stageOdds c (nth i STAGES Group)))%js ]
  ++ hedgeOutflows c (firstn (i + 1) STAGES).
Proof.
  intros H. unfold elimCashFlows, elimIteration. cbn [snd]. rewrite H. reflexivity.
Qed.



Lemma resaleNetProceeds_fin (c : Config) :
  exists x : R, resaleNetProceeds c = Fin x.
Proof. unfold resaleNetProceeds. cbv zeta. unfold sub, neg, add, mul, div. rdec. eauto. Qed.


Lemma finals_hedged (c : Config) :
  hedgeEnabled c = true ->
  hCarryCost (finalsScenario c) = hedgeCarryCostPerStage c STAGES /\
  netPL (finalsScenario c)
  = (resaleNetProceeds c - totalPurchase c - carryingCost c
     - hedgeCarryCostPerStage c STAGES + - sumStakes c STAGES)%js /\
  finalsCashFlows c
  = [ mkCashFlow 0 (- totalPurchase c)%js;
      mkCashFlow proceedsMonth (resaleNetProceeds c) ]
    ++ hedgeOutflows c (firstn (4 + 1) STAGES).
Proof.
  intros H. unfold finalsScenario, finalsCashFlows, finalsIteration.
  cbn [fst snd hCarryCost netPL]. rewrite H. repeat split.
Qed.




(** ** Risk metrics and the expected value *)








(** ** Rates below -100% *)

Lemma Zfloor_small (y : R) : 0 <= y < 1 -> Zfloor y = 0%Z.
Proof. intros H. apply Zfloor_eq. lra. Qed.

(** A negative base under a fractional exponent has no power. *)
Lemma growthN_NaN (c : Config) (y : R) :
  annualOpportunityCost c < -100 -> 0 < y < 1 -> growthN c y = NaN.
Proof.
  intros Hr Hy. unfold growthN, add, div. rdec. unfold pow. rdec.
  unfold pow_fin, is_int. rewrite Zfloor_small by lra. rdec. reflexivity.
Qed.

Lemma carryingCost_NaN (c : Config) :
  annualOpportunityCost c < -100 -> carryingCost c = NaN.
Proof.
  intros Hr. rewrite carryingCost_growth, growthN_NaN;
    [reflexivity | exact Hr | unfold proceedsMonth; lra].
Qed.

Lemma mul_NaN_r (a : num) : (a * NaN)%js = NaN.
Proof. destruct a; reflexivity. Qed.

Lemma add_NaN_r (a : num) : (a + NaN)%js = NaN.
Proof. destruct a; reflexivity. Qed.

Lemma NaN_absorbs (a d e : num) : (a - NaN - d + e)%js = NaN.
Proof. unfold sub. cbn [neg]. rewrite add_NaN_r. reflexivity. Qed.

Lemma elimScenario_netPL_NaN (c : Config) (i : nat) :
  carryingCost c = NaN -> netPL (elimScenario c i) = NaN.
Proof.
  intros H. unfold elimScenario, elimIteration. cbn [fst netPL].
  rewrite H. reflexivity.
Qed.

Lemma finalsScenario_netPL_NaN (c : Config) :
  carryingCost c = NaN -> netPL (finalsScenario c) = NaN.
Proof.
  intros H. unfold finalsScenario, finalsIteration. cbn [fst netPL].
  rewrite H. apply NaN_absorbs.
Qed.

Lemma scenarios_netPL_NaN (c : Config) :
  annualOpportunityCost c < -100 ->
  map netPL (scenarios c) = [NaN; NaN; NaN; NaN; NaN; NaN].
Proof.
  intros Hr. pose proof (carryingCost_NaN c Hr) as Hcc.
  rewrite scenarios_eq. cbn [map].
  rewrite !elimScenario_netPL_NaN, finalsScenario_netPL_NaN by exact Hcc.
  reflexivity.
Qed.

(** X16: an opportunity-cost rate below -100% makes the base carrying cost
    [NaN] (a negative base under a fractional exponent), and with it the net
    P&L of all six scenarios, the expected value, the maximum loss, the
    maximum gain and the breakeven price. *)
Theorem rate_below_minus_100_gives_NaN (c : Config) :
  annualOpportunityCost c < -100 ->
  carryingCost c = NaN /\
  Forall (fun s => netPL s = NaN) (scenarios c) /\
  expectedValue c = NaN /\ maxLoss c = NaN /\ maxGain c = NaN /\
  breakEvenResale c = NaN.
Proof.
  intros Hr. pose proof (carryingCost_NaN c Hr) as Hcc.
  pose proof (scenarios_netPL_NaN c Hr) as HN.
  split; [exact Hcc|]. split; [|split; [|split; [|split]]].
  - apply Forall_forall. intros s Hs.
    apply (in_map netPL) in Hs. rewrite HN in Hs.
    cbn in Hs. intuition congruence.
  - unfold expectedValue. rewrite scenarios_eq. cbn [fold_left].
    rewrite (finalsScenario_netPL_NaN c Hcc), mul_NaN_r, add_NaN_r. reflexivity.
  - unfold maxLoss, mathMin. rewrite HN. reflexivity.
  - unfold maxGain, mathMax. rewrite HN. reflexivity.
  - unfold breakEvenResale. cbv zeta. rewrite Hcc, add_NaN_r.
    destruct (hedgeCarryCostPerStage c STAGES), (hedgeEnabled c); reflexivity.
Qed.
Lemma rate_below_minus_100_gives_NaN_witness :
  carryingCost belowMinus100 = NaN /\
  Forall (fun s => netPL s = NaN) (scenarios belowMinus100) /\
  expectedValue belowMinus100 = NaN /\ maxLoss belowMinus100 = NaN /\
  maxGain belowMinus100 = NaN /\ breakEvenResale belowMinus100 = NaN.
Proof.
  apply (rate_below_minus_100_gives_NaN belowMinus100). cbn. lra.
Defined.

(** ** Sign of the carrying costs *)

(** The growth factor is at least 1 for a rate that is not negative and at
    most 1 for a rate between -100% and 0. *)
Lemma growthN_vs_1 (c : Config) (y : R) :
  0 < y ->
  -100 <= annualOpportunityCost c ->
  exists g : R,
    growthN c y = Fin g /\
    (0 <= annualOpportunityCost c -> 1 <= g) /\
    (annualOpportunityCost c <= 0 -> g <= 1).
Proof.
  intros Hy Hr. unfold growthN, add, div. rdec. unfold pow. rdec.
  unfold pow_fin.
  set (b := 1 + annualOpportunityCost c / 100).
  assert (Hb : 0 <= b) by (subst b; lra).
  destruct (Rltb_spec 0 b) as [Hpos|Hz].
  - exists (Rpower b y). split; [reflexivity|]. split; intros H.
    + rewrite <- (Rpower_base_1 y). apply Rle_Rpower_l; [lra|]. subst b. lra.
    + rewrite <- (Rpower_base_1 y). apply Rle_Rpower_l; [lra|]. subst b. lra.
  - rewrite Reqb_true by lra. rdec. exists 0. split; [reflexivity|].
    split; intros H; subst b; lra.
Qed.

Lemma hedgeCarry_sign_acc (c : Config) (l : list stage) (a : R) :
  -100 <= annualOpportunityCost c ->
  (forall s, 0 <= hedgeStakes c s) ->
  exists x : R,
    fold_left
      (fun sum s => (sum + hedgeStakes c s * (growthN c (carryYears s) - 1))%js)
      l (Fin a) = Fin x /\
    (0 <= annualOpportunityCost c -> a <= x) /\
    (annualOpportunityCost c <= 0 -> x <= a).
Proof.
  intros Hr Hs. revert a. induction l as [|s l IH]; intros a.
  - exists a. cbn. repeat split; lra.
  - cbn [fold_left].
    destruct (growthN_vs_1 c (carryYears s) (carryYears_pos s) Hr) as (g & -> & G1 & G2).
    cbn [sub neg add mul].
    destruct (IH (a + hedgeStakes c s * (g + - 1))) as (x & E & X1 & X2).
    exists x. split; [exact E|]. specialize (Hs s).
    split; intros H; [specialize (X1 H); specialize (G1 H) | specialize (X2 H); specialize (G2 H)];
      nra.
Qed.

(** X17: for a non-negative purchase and non-negative stakes, the base
    carrying cost and the hedge carrying cost of any list of stages are
    numbers that are not negative when the opportunity-cost rate is not
    negative, and not positive when the rate is between -100% and 0. *)
Theorem carrying_cost_sign (c : Config) (stages : list stage) :
  0 <= numTickets c * pricePerTicket c ->
  (forall s, 0 <= hedgeStakes c s) ->
  (0 <= annualOpportunityCost c ->
   nonNegative (carryingCost c) /\ nonNegative (hedgeCarryCostPerStage c stages)) /\
  (-100 <= annualOpportunityCost c <= 0 ->
   nonPositive (carryingCost c) /\ nonPositive (hedgeCarryCostPerStage c stages)).
Proof.
  intros Hp Hs.
  assert (Hy : 0 < proceedsMonth / 12) by (unfold proceedsMonth; lra).
  assert (K : -100 <= annualOpportunityCost c ->
              exists x h : R,
                carryingCost c = Fin x /\ hedgeCarryCostPerStage c stages = Fin h /\
                (0 <= annualOpportunityCost c -> 0 <= x /\ 0 <= h) /\
                (annualOpportunityCost c <= 0 -> x <= 0 /\ h <= 0)).
  { intros Hr.
    destruct (growthN_vs_1 c _ Hy Hr) as (g & Hg & G1 & G2).
    rewrite carryingCost_growth, Hg. unfold totalPurchase. cbn [sub neg add mul].
    destruct (hedgeEnabled c) eqn:He.
    - rewrite hedgeCarryCostPerStage_growth by exact He.
      destruct (hedgeCarry_sign_acc c stages 0 Hr Hs) as (h & -> & H1 & H2).
      eexists. exists h. split; [reflexivity|]. split; [reflexivity|].
      split; intros H; [specialize (G1 H); specialize (H1 H) | specialize (G2 H); specialize (H2 H)];
        split; nra.
    - rewrite hedgeCarryCostPerStage_disabled by exact He.
      eexists. exists 0. split; [reflexivity|]. split; [reflexivity|].
      split; intros H; [specialize (G1 H) | specialize (G2 H)]; split; nra. }
  split.
  - intros Hr. destruct K as (x & h & -> & -> & K1 & _); [lra|].
    destruct (K1 Hr). split; eexists; eauto.
  - intros [Hr1 Hr2]. destruct (K Hr1) as (x & h & -> & -> & _ & K2).
    destruct (K2 Hr2). split; eexists; eauto.
Qed.

Lemma carrying_cost_sign_witness :
  nonNegative (carryingCost DEFAULTS) /\
  nonNegative (hedgeCarryCostPerStage DEFAULTS STAGES).
Proof.
  destruct (carrying_cost_sign DEFAULTS STAGES) as [H _].
  - cbn. lra.
  - intros s. destruct s; cbn; lra.
  - apply H. cbn. lra.
Defined.
(** ** What hedging costs when the final is reached *)

Lemma sumStakes_nonneg_acc (c : Config) (l : list stage) (a : R) :
  (forall s, 0 <= hedgeStakes c s) ->
  a <= fold_left (fun t s => t + hedgeStakes c s) l a.
Proof.
  intros Hs. revert a. induction l as [|s l IH]; intros a; cbn [fold_left]; [lra|].
  specialize (IH (a + hedgeStakes c s)). specialize (Hs s). lra.
Qed.

Lemma unhedged_twin (c : Config) :
  carryingCost (withHedgeEnabled c false) = carryingCost c /\
  totalPurchase (withHedgeEnabled c false) = totalPurchase c /\
  resaleNetProceeds (withHedgeEnabled c false) = resaleNetProceeds c.
Proof. repeat split. Qed.

(** X18: with hedging enabled and a rate of at least -100%, the net P&L of
    the finals scenario is the net P&L of the same configuration without
    hedging, minus the hedge carrying cost of all five stages, minus the sum
    of all five stakes; for non-negative stakes and a non-negative rate it is
    therefore never above the unhedged one. *)
Theorem hedging_cost_in_finals (c : Config) :
  -100 <= annualOpportunityCost c ->
  hedgeEnabled c = true ->
  exists unhedgedPL hedgedPL stakes carry : R,
    netPL (finalsScenario (withHedgeEnabled c false)) = Fin unhedgedPL /\
    netPL (finalsScenario c) = Fin hedgedPL /\
    sumStakes c STAGES = Fin stakes /\
    hedgeCarryCostPerStage c STAGES = Fin carry /\
    hedgedPL = unhedgedPL - carry - stakes /\
    ((forall s, 0 <= hedgeStakes c s) -> 0 <= annualOpportunityCost c ->
     hedgedPL <= unhedgedPL).
Proof.
  intros Hr He.
  destruct (carryingCost_fin c Hr) as [cc Hcc].
  destruct (resaleNetProceeds_fin c) as [x Hx].
  destruct (finals_hedged c He) as (_ & Hn & _).
  destruct (unhedged_finals (withHedgeEnabled c false) eq_refl) as (_ & _ & _ & Hu & _).
  destruct (unhedged_twin c) as (T1 & T2 & T3).
  unfold baseNetPL in Hu. rewrite T1, T2, T3, Hcc, Hx in Hu.
  rewrite Hcc, Hx in Hn. rewrite sumStakes_fin in *.
  rewrite hedgeCarryCostPerStage_growth in * by exact He.
  set (st := fold_left (fun t s => t + hedgeStakes c s) STAGES 0) in *.
  assert (Hcarry : exists hc : R,
             fold_left
               (fun sum s =>
                  (sum + hedgeStakes c s * (growthN c (carryYears s) - 1))%js)
               STAGES (Fin 0) = Fin hc /\
             ((forall s, 0 <= hedgeStakes c s) -> 0 <= annualOpportunityCost c ->
              0 <= hc)).
  { destruct (hedgeCarry_fin_acc c STAGES 0 Hr) as [hc Hhc].
    exists hc. split; [exact Hhc|]. intros Hs H0.
    destruct (hedgeCarry_sign_acc c STAGES 0 Hr Hs) as (hc' & E & P & _).
    rewrite Hhc in E. apply Fin_inj in E. subst hc'. now apply P. }
  destruct Hcarry as (hc & Hhc & Hsign). rewrite Hhc in Hn.
  unfold totalPurchase in *. cbn [sub neg add mul] in Hn, Hu.
  eexists. eexists. exists st, hc.
  split; [exact Hu|]. split; [exact Hn|]. split; [reflexivity|].
  split; [exact Hhc|]. split; [lra|].
  intros Hs H0. specialize (Hsign Hs H0).
  pose proof (sumStakes_nonneg_acc c STAGES 0 Hs) as Hst. fold st in Hst. lra.
Qed.

Lemma hedging_cost_in_finals_witness :
  exists unhedgedPL hedgedPL stakes carry : R,
    netPL (finalsScenario (withHedgeEnabled DEFAULTS false)) = Fin unhedgedPL /\
    netPL (finalsScenario DEFAULTS) = Fin hedgedPL /\
    sumStakes DEFAULTS STAGES = Fin stakes /\
    hedgeCarryCostPerStage DEFAULTS STAGES = Fin carry /\
    hedgedPL = unhedgedPL - carry - stakes /\
    ((forall s, 0 <= hedgeStakes DEFAULTS s) -> 0 <= annualOpportunityCost DEFAULTS ->
     hedgedPL <= unhedgedPL).
Proof.
  apply (hedging_cost_in_finals DEFAULTS).
  - cbn. lra.
  - reflexivity.
Defined.

(** ** The prices of the sweep *)

Lemma sweepFrom_S (c : Config) (n : nat) (p : num) :
  sweepFrom c (S n) p =
  if (p <=? 30000)%js
  then sensitivityPoint c p :: sweepFrom c n (p + 500)%js else [].
Proof. reflexivity. Qed.

Lemma sweepFrom_prices (c : Config) (n : nat) (p : R) :
  30000 < p + 500 * INR n <= 30500 ->
  map Point.price (sweepFrom c (S n) p)
  = map (fun j => Fin (p + 500 * INR j)) (seq 0 n).
Proof.
  revert p. induction n as [|n IH]; intros p H.
  - cbn in H. rewrite sweepFrom_S. unfold leb. rewrite Rleb_false by lra.
    reflexivity.
  - rewrite S_INR in H. pose proof (pos_INR n) as Hn.
    rewrite sweepFrom_S. unfold leb. rewrite Rleb_true by lra.
    cbn [map seq]. f_equal.
    + cbn [sensitivityPoint Point.price]. f_equal. cbn. lra.
    + change (Fin p + 500)%js with (Fin (p + 500)).
      rewrite (IH (p + 500)) by lra.
      rewrite <- seq_shift, map_map. apply map_ext. intros j.
      f_equal. rewrite S_INR. lra.
Qed.

(** X19: for every configuration the sweep has exactly 57 points, at the
    prices 2000, 2500, ..., 30000 in this order (both ends included), and
    testing the loop condition more often would add no point. *)
Theorem sweep_prices (c : Config) :
  map Point.price (sensitivityData c)
  = map (fun j => Fin (2000 + 500 * INR j)) (seq 0 57) /\
  length (sensitivityData c) = 57%nat /\
  (forall k : nat, sweepFrom c (58 + k) 2000 = sensitivityData c).
Proof.
  assert (P : map Point.price (sensitivityData c)
              = map (fun j => Fin (2000 + 500 * INR j)) (seq 0 57)).
  { apply (sweepFrom_prices c 57 2000). simpl. lra. }
  split; [exact P|]. split.
  - rewrite <- (length_map Point.price), P, length_map. apply length_seq.
  - apply sensitivityData_complete.
Qed.

(** ** Entering and displaying odds *)

Lemma outcome_eqb_refl (k : outcome) : outcome_eqb k k = true.
Proof. destruct k as [[]| |]; reflexivity. Qed.

Lemma outcome_eqb_eq (j k : outcome) : outcome_eqb j k = true -> j = k.
Proof.
  destruct j as [[]| |], k as [[]| |]; cbn; intros H;
    try reflexivity; discriminate.
Qed.

Lemma outcome_set_same {V : Type} (o : outcome -> V) (k : outcome) (v : V) :
  outcome_set o k v k = v.
Proof. unfold outcome_set. now rewrite outcome_eqb_refl. Qed.

Lemma outcome_set_other {V : Type} (o : outcome -> V) (j k : outcome) (v : V) :
  j <> k -> outcome_set o k v j = o j.
Proof.
  intros H. unfold outcome_set. destruct (outcome_eqb j k) eqn:E; [|reflexivity].
  apply outcome_eqb_eq in E. contradiction.
Qed.

(** X20: [updateOdds] keeps the odds valid: if every outcome has odds above
    1.0 before an update, every outcome has odds above 1.0 after it,
    whatever the format, the key and the value entered. *)
Theorem updateOdds_keeps_valid (format : oddsFormat) (odds : outcome -> num)
  (key : outcome) (val : num) :
  validOdds odds -> validOdds (updateOdds format odds key val).
Proof.
  intros H k. unfold updateOdds. cbv zeta.
  set (dec := match format with
              | americanFormat => americanToDecimal val
              | decimalFormat => val
              end).
  destruct (dec >? 1)%js eqn:E; [|apply H].
  unfold outcome_set. destruct (outcome_eqb k key); [exact E | apply H].
Qed.

Lemma DEFAULTS_validOdds : validOdds (oddsState DEFAULTS).
Proof.
  intros k. unfold oddsState, gtb, ltb. apply Rltb_true.
  destruct k as [[]| |]; cbn; lra.
Qed.

Lemma updateOdds_keeps_valid_witness :
  validOdds (updateOdds americanFormat (oddsState DEFAULTS) Winner 50).
Proof.
  apply (updateOdds_keeps_valid americanFormat (oddsState DEFAULTS) Winner 50).
  exact DEFAULTS_validOdds.
Defined.

Lemma americanToDecimal_invalid (x : R) :
  -100 < x < 100 -> americanToDecimal x = Fin 1.
Proof. intros H. unfold americanToDecimal. js_unfold. rdec. reflexivity. Qed.

(** X21: [updateOdds] leaves the state untouched when the value entered is
    not acceptable: an American value strictly between -100 and 100, a
    decimal value of 1 or less, or [NaN] in either format. *)
Theorem updateOdds_rejects_invalid (odds : outcome -> num) (key : outcome) :
  (forall x : R, -100 < x < 100 -> updateOdds americanFormat odds key x = odds) /\
  (forall x : R, x <= 1 -> updateOdds decimalFormat odds key x = odds) /\
  (forall format : oddsFormat, updateOdds format odds key NaN = odds).
Proof.
  split; [|split].
  - intros x H. unfold updateOdds. rewrite americanToDecimal_invalid by exact H.
    cbv zeta. unfold gtb, ltb. rdec. reflexivity.
  - intros x H. unfold updateOdds. cbv zeta. unfold gtb, ltb. rdec. reflexivity.
  - intros []; [reflexivity|].
    unfold updateOdds, americanToDecimal. cbn. unfold Rltb.
    destruct (Rlt_dec 1 1); [lra | reflexivity].
Qed.

Lemma americanToDecimal_valid (v : Z) :
  (100 <= v \/ v < -100)%Z ->
  exists d : R, americanToDecimal (IZR v) = Fin d /\ 1 < d.
Proof.
  intros [H|H].
  - apply IZR_le in H. rewrite americanToDecimal_pos by exact H.
    eexists. split; [reflexivity|]. lra.
  - apply IZR_lt in H. rewrite americanToDecimal_neg by lra.
    eexists. split; [reflexivity|].
    assert (0 < 100 / - IZR v) by (apply Rdiv_lt_0_compat; lra). lra.
Qed.

(** X22: an American value [v] of at most a million in magnitude, with
    [v >= 100] or [v < -100], that is entered for a key is accepted, is
    displayed back unchanged for that key, and changes the odds of no other
    key; a decimal value above 1 likewise. *)
Theorem entered_odds_displayed_back (odds : outcome -> num) (key : outcome) :
  (forall v : Z, (100 <= v <= 1000000 \/ -1000000 <= v < -100)%Z ->
     getDisplayOdds americanFormat (updateOdds americanFormat odds key (IZR v)) key
     = Fin (IZR v) /\
     forall k, k <> key -> updateOdds americanFormat odds key (IZR v) k = odds k) /\
  (forall x : R, 1 < x ->
     getDisplayOdds decimalFormat (updateOdds decimalFormat odds key x) key = Fin x /\
     forall k, k <> key -> updateOdds decimalFormat odds key x k = odds k).
Proof.
  split.
  - intros v Hb.
    assert (Hv : (100 <= v \/ v < -100)%Z) by lia.
    destruct (americanToDecimal_valid v Hv) as (d & Hd & Hgt).
    assert (U : updateOdds americanFormat odds key (IZR v)
                = outcome_set odds key (americanToDecimal (IZR v))).
    { unfold updateOdds. cbv zeta. rewrite Hd. unfold gtb, ltb. rdec. reflexivity. }
    rewrite U. split.
    + unfold getDisplayOdds. cbv zeta. rewrite outcome_set_same.
      destruct Hv as [Hv|Hv];
        [apply americanRoundTrip_pos | apply americanRoundTrip_neg]; exact Hv.
    + intros k Hk. now apply outcome_set_other.
  - intros x Hx.
    assert (U : updateOdds decimalFormat odds key x = outcome_set odds key x).
    { unfold updateOdds. cbv zeta. unfold gtb, ltb. rdec. reflexivity. }
    rewrite U. split.
    + unfold getDisplayOdds. cbv zeta. apply outcome_set_same.
    + intros k Hk. now apply outcome_set_other.
Qed.

Lemma updateOdds_rejects_invalid_witness :
  updateOdds americanFormat (oddsState DEFAULTS) Winner 50 = oddsState DEFAULTS.
Proof.
  apply (updateOdds_rejects_invalid (oddsState DEFAULTS) Winner). lra.
Defined.

Lemma entered_odds_displayed_back_witness :
  getDisplayOdds americanFormat
    (updateOdds americanFormat (oddsState DEFAULTS) Winner (IZR 250)) Winner
  = Fin (IZR 250).
Proof.
  apply (entered_odds_displayed_back (oddsState DEFAULTS) Winner). left. lia.
Defined.

(** ** Expected IRR *)

Lemma discountR_nonzero (r m : R) : discountR r m <> 0.
Proof.
  unfold discountR. destruct (Reqb m 0); [lra | apply Rpower_nonzero].
Qed.

Lemma pow_discount (r m : R) :
  -1 < r -> ((1 + r) ** Fin m)%js = Fin (discountR r m).
Proof.
  intros Hr. unfold add, pow, discountR.
  destruct (Reqb m 0); [reflexivity|]. unfold pow_fin. rdec. reflexivity.
Qed.

Lemma npv_finite_acc (r : R) (l : list (R * R)) (t : R) :
  -1 < r ->
  fold_left (fun sum cf => (sum + amount cf / (1 + r) ** month cf)%js)
    (map finiteEvent l) (Fin t)
  = Fin (t + eventSum r l).
Proof.
  intros Hr. revert t. induction l as [|[m a] l IH]; intros t.
  - cbn. f_equal. ring.
  - cbn [map fold_left finiteEvent fst snd month amount eventSum fold_right].
    rewrite pow_discount by exact Hr.
    replace (t + a / discountR r m)%js with (Fin (t + a / discountR r m)).
    + rewrite IH. f_equal. fold (eventSum r l). ring.
    + unfold add, div. rewrite Reqb_false by apply discountR_nonzero. reflexivity.
Qed.

(** The NPV of finite events at a finite rate above -1. *)
Lemma npv_finite (r : R) (l : list (R * R)) :
  -1 < r -> npv (map finiteEvent l) r = Fin (0 + eventSum r l).
Proof. intros Hr. unfold npv. now apply npv_finite_acc. Qed.

Lemma eventSum_app (r : R) (l1 l2 : list (R * R)) :
  eventSum r (l1 ++ l2) = eventSum r l1 + eventSum r l2.
Proof.
  unfold eventSum in *.
  induction l1 as [|e l1 IH]; cbn [app fold_right]; [lra|].
  rewrite IH. lra.
Qed.

(** A key below all keys of a month object is not in it. *)
Lemma month_get_below (l : list (Z * R)) (b m : Z) :
  keysAbove b l -> (m <= b)%Z -> month_get (finObj l) m = NaN.
Proof.
  revert b. induction l as [|[k w] l IH]; intros b Hs Hm; [reflexivity|].
  cbn [finObj map month_get fst snd]. cbn [keysAbove fst] in Hs.
  destruct Hs as [Hk Hs].
  replace (k =? m)%Z with false by (symmetry; apply Z.eqb_neq; lia).
  apply (IH k); [exact Hs | lia].
Qed.

(** Adding a finite amount under a month key: [o[m] = (o[m] || 0) + v]. *)
Lemma month_add (r : R) (l : list (Z * R)) (b m : Z) (v : R) :
  keysAbove b l -> (b < m)%Z ->
  exists l' : list (Z * R),
    month_set (finObj l) m ((month_get (finObj l) m || 0) + Fin v)%js = finObj l' /\
    keysAbove b l' /\
    objSum r l' = objSum r l + v / discountR r (IZR m).
Proof.
  revert b. induction l as [|[k w] l IH]; intros b Hs Hm.
  - exists [(m, 0 + v)]. split; [reflexivity|].
    split; [cbn [keysAbove fst]; auto|].
    cbn [objSum fold_right fst snd]. unfold Rdiv. ring.
  - cbn [keysAbove fst] in Hs. destruct Hs as [Hk Hs].
    cbn [finObj map month_get month_set fst snd].
    destruct (Z.eqb_spec k m) as [E|E].
    + subst k. rewrite Z.eqb_refl, or_else_Fin.
      exists ((m, w + v) :: l). cbn [finObj map fst snd add].
      split; [reflexivity|]. split; [cbn [keysAbove fst]; auto|].
      cbn [objSum fold_right fst snd]. unfold Rdiv. ring.
    + replace (m =? k)%Z with false by (symmetry; apply Z.eqb_neq; lia).
      destruct (Z.ltb_spec m k) as [L|L].
      * fold (finObj l). rewrite (month_get_below l k m Hs) by lia.
        rewrite or_else_NaN.
        exists ((m, 0 + v) :: (k, w) :: l). cbn [finObj map fst snd add].
        split; [reflexivity|].
        split; [cbn [keysAbove fst]; repeat split; auto; lia|].
        cbn [objSum fold_right fst snd]. unfold Rdiv. ring.
      * fold (finObj l).
        destruct (IH k Hs) as (l' & El & Sl & Ol); [lia|].
        rewrite El. exists ((k, w) :: l'). cbn [finObj map fst snd].
        split; [reflexivity|]. split; [cbn [keysAbove fst]; auto|].
        cbn [objSum fold_right fst snd]. fold (objSum r l'). fold (objSum r l).
        rewrite Ol. ring.
Qed.

(** The loop that adds one amount per stage under the stage's month. *)
Lemma outflow_loop (r : R) (val : stage -> num) (g : stage -> R)
  (stages : list stage) (l : list (Z * R)) :
  (forall s, val s = Fin (g s)) ->
  keysAbove 0 l ->
  exists l' : list (Z * R),
    fold_left
      (fun o s =>
         let m := hedgeMonths s in
         month_set o m ((month_get o m || 0) + val s)%js)
      stages (finObj l) = finObj l' /\
    keysAbove 0 l' /\
    objSum r l' =
    objSum r l
    + fold_right (fun s t => g s / discountR r (IZR (hedgeMonths s)) + t) 0 stages.
Proof.
  intros Hv. revert l. induction stages as [|s stages IH]; intros l Hs.
  - exists l. split; [reflexivity|]. split; [exact Hs|]. cbn [fold_right]. ring.
  - cbn [fold_left]. cbv zeta. rewrite Hv.
    destruct (month_add r l 0 (hedgeMonths s) (g s) Hs) as (l1 & E1 & S1 & O1);
      [destruct s; cbn; lia|].
    rewrite E1. destruct (IH l1 S1) as (l' & E & S & O).
    exists l'. split; [exact E|]. split; [exact S|].
    rewrite O, O1. cbn [fold_right]. ring.
Qed.

(** The outflow events pushed for a month object, as finite events. *)
Lemma outflow_events (r : R) (l : list (Z * R)) :
  map (fun '(m, amt) => mkCashFlow (IZR m) (- amt)%js) (finObj l)
  = map finiteEvent (map (fun e => (IZR (fst e), - snd e)) l) /\
  eventSum r (map (fun e => (IZR (fst e), - snd e)) l) = - objSum r l.
Proof.
  induction l as [|[m a] l [IH1 IH2]].
  - split; [reflexivity|]. cbn. ring.
  - split.
    + cbn [finObj map fst snd]. fold (finObj l). rewrite IH1. reflexivity.
    + cbn [map eventSum fold_right objSum fst snd].
      fold (eventSum r (map (fun e => (IZR (fst e), - snd e)) l)).
      fold (objSum r l). rewrite IH2. unfold Rdiv. ring.
Qed.

(** The hedge outflows of any list of stages, discounted at rate [r]. *)
Lemma hedgeOutflows_events (c : Config) (r : R) (stages : list stage) :
  exists ev : list (R * R),
    hedgeOutflows c stages = map finiteEvent ev /\
    eventSum r ev = - stakesSum c r stages.
Proof.
  unfold hedgeOutflows. cbv zeta.
  destruct (outflow_loop r (fun s => Fin (hedgeStakes c s)) (hedgeStakes c) stages [])
    as (l & E & _ & O); [reflexivity | exact I |].
  change (finObj []) with (@nil (Z * num)) in E. cbv zeta in E. rewrite E.
  destruct (outflow_events r l) as [F1 F2].
  eexists. split; [exact F1|]. rewrite F2, O. unfold stakesSum. cbn. ring.
Qed.
Lemma scaled_stakesSum (c : Config) (r q : R) (stages : list stage) :
  fold_right
    (fun s t => q * hedgeStakes c s / discountR r (IZR (hedgeMonths s)) + t) 0 stages
  = q * stakesSum c r stages.
Proof.
  unfold stakesSum. induction stages as [|s l IH]; cbn [fold_right]; [ring|].
  rewrite IH. unfold Rdiv. ring.
Qed.

(** The weighted outflows that one scenario adds to the blended timeline. *)
Lemma weighted_outflow_loop (c : Config) (r q : R) (stages : list stage)
  (l : list (Z * R)) :
  keysAbove 0 l ->
  exists l' : list (Z * R),
    fold_left
      (fun o st =>
         let m := hedgeMonths st in
         month_set o m ((month_get o m || 0) + Fin q * hedgeStakes c st)%js)
      stages (finObj l) = finObj l' /\
    keysAbove 0 l' /\
    objSum r l' = objSum r l + q * stakesSum c r stages.
Proof.
  intros Hs.
  destruct (outflow_loop r (fun s => (Fin q * hedgeStakes c s)%js)
              (fun s => q * hedgeStakes c s) stages l)
    as (l' & E & S & O); [reflexivity | exact Hs |].
  exists l'. split; [exact E|]. split; [exact S|].
  rewrite O, scaled_stakesSum. reflexivity.
Qed.

Lemma elimScenario_fields (c : Config) (i : nat) :
  isFinals (elimScenario c i) = false /\
  stageId (elimScenario c i) = ElimAt (nth i STAGES Group) /\
  probability (elimScenario c i) = elimProbs c (nth i STAGES Group) /\
  grossProceeds (elimScenario c i) = Fin (pricePerTicket c * numTickets c) /\
  placedStages (elimScenario c i) = firstn (i + 1) STAGES.
Proof. repeat split. Qed.

Lemma finalsScenario_fields (c : Config) :
  isFinals (finalsScenario c) = true /\
  probability (finalsScenario c) = probFinals c /\
  netProceeds (finalsScenario c) = resaleNetProceeds c /\
  placedStages (finalsScenario c) = STAGES.
Proof. repeat split. Qed.

Lemma probability_fraction (f : R) : (Fin f / 100)%js = Fin (f / 100).
Proof. unfold div. rdec. reflexivity. Qed.

(** One elimination scenario: the NPV of its own timeline and what it adds
    to the blended timeline, in terms of the same inflow and stakes. *)
Lemma blend_step_elim (c : Config) (r : R) (i : nat) (W : R) (l : list (Z * R)) :
  (i < length STAGES)%nat ->
  -1 < r ->
  (hedgeEnabled c = true -> forall s : stage, 0 < bettingOdds c s) ->
  keysAbove 0 l ->
  exists (inflow S : R) (l' : list (Z * R)),
    npv (elimCashFlows c i) r
    = Fin (- (numTickets c * pricePerTicket c) / discountR r 0
           + inflow / discountR r proceedsMonth - S) /\
    expectedROIStep c (Fin W, finObj l) (elimScenario c i)
    = (Fin (W + fairR c (nth i STAGES Group) / 100 * inflow), finObj l') /\
    keysAbove 0 l' /\
    objSum r l' = objSum r l + fairR c (nth i STAGES Group) / 100 * S.
Proof.
  intros Hi Hr Ho Hs.
  destruct (elimScenario_fields c i) as (F1 & F2 & F3 & F4 & F5).
  unfold expectedROIStep, stakeOfScenario, adjustedOddsOfScenario.
  rewrite F1, F2, F3, F4, F5, elimProbs_closed, probability_fraction.
  destruct (hedgeEnabled c) eqn:He.
  - specialize (Ho eq_refl).
    destruct (adjustedN_fin c (nth i STAGES Group) (Ho _)) as [o Hadj].
    rewrite stageOdds_adjustedOdds, Hadj, or_else_Fin.
    destruct (hedgeOutflows_events c r (firstn (i + 1) STAGES)) as (ev & Eev & Sev).
    destruct (weighted_outflow_loop c r (fairR c (nth i STAGES Group) / 100)
                (firstn (i + 1) STAGES) l Hs) as (l' & El & Sl & Ol).
    exists (pricePerTicket c * numTickets c + hedgeStakes c (nth i STAGES Group) * o),
      (stakesSum c r (firstn (i + 1) STAGES)), l'.
    split; [|split; [|split; assumption]].
    + rewrite elimCashFlows_hedged by exact He.
      rewrite stageOdds_adjustedOdds, Hadj, Eev.
      change ([mkCashFlow 0 (- totalPurchase c)%js;
               mkCashFlow proceedsMonth
                 (pricePerTicket c * numTickets c
                  + hedgeStakes c (nth i STAGES Group) * Fin o)%js]
              ++ map finiteEvent ev)
        with (map finiteEvent
                ((0, - (numTickets c * pricePerTicket c))
                 :: (proceedsMonth,
                     pricePerTicket c * numTickets c
                     + hedgeStakes c (nth i STAGES Group) * o) :: ev)).
      rewrite npv_finite by exact Hr. f_equal.
      cbn [eventSum fold_right fst snd]. fold (eventSum r ev). rewrite Sev. ring.
    + cbv zeta. cbv zeta in El. rewrite El. reflexivity.
  - exists (pricePerTicket c * numTickets c), 0, l.
    split; [|split; [|split]].
    + destruct (unhedged_elim c i He) as (_ & _ & _ & _ & Hcf). rewrite Hcf.
      change (baseCashFlows c (reimbursement c))
        with (map finiteEvent
                [(0, - (numTickets c * pricePerTicket c));
                 (proceedsMonth, pricePerTicket c * numTickets c)]).
      rewrite npv_finite by exact Hr. f_equal.
      cbn [eventSum fold_right fst snd]. ring.
    + cbv zeta. cbn [add mul]. f_equal. f_equal. ring.
    + exact Hs.
    + ring.
Qed.

Lemma blend_step_finals (c : Config) (r : R) (W : R) (l : list (Z * R)) :
  -1 < r ->
  keysAbove 0 l ->
  exists (inflow S : R) (l' : list (Z * R)),
    npv (finalsCashFlows c) r
    = Fin (- (numTickets c * pricePerTicket c) / discountR r 0
           + inflow / discountR r proceedsMonth - S) /\
    expectedROIStep c (Fin W, finObj l) (finalsScenario c)
    = (Fin (W + (fairR c RunnerUp + fairR c Winner) / 100 * inflow), finObj l') /\
    keysAbove 0 l' /\
    objSum r l' = objSum r l + (fairR c RunnerUp + fairR c Winner) / 100 * S.
Proof.
  intros Hr Hs.
  destruct (finalsScenario_fields c) as (F1 & F2 & F3 & F4).
  destruct (resaleNetProceeds_fin c) as [x Hx].
  unfold expectedROIStep. rewrite F1, F2, F3, F4, Hx. unfold probFinals.
  rewrite !oddsData_fairProbs.
  change (Fin (fairR c RunnerUp) + Fin (fairR c Winner))%js
    with (Fin (fairR c RunnerUp + fairR c Winner)).
  rewrite probability_fraction.
  destruct (hedgeEnabled c) eqn:He.
  - destruct (hedgeOutflows_events c r STAGES) as (ev & Eev & Sev).
    destruct (weighted_outflow_loop c r ((fairR c RunnerUp + fairR c Winner) / 100)
                STAGES l Hs) as (l' & El & Sl & Ol).
    exists x, (stakesSum c r STAGES), l'.
    split; [|split; [|split; assumption]].
    + destruct (finals_hedged c He) as (_ & _ & Hcf). rewrite Hcf, Hx.
      change (firstn (4 + 1) STAGES) with STAGES. rewrite Eev.
      change ([mkCashFlow 0 (- totalPurchase c)%js; mkCashFlow proceedsMonth x]
              ++ map finiteEvent ev)
        with (map finiteEvent
                ((0, - (numTickets c * pricePerTicket c)) :: (proceedsMonth, x) :: ev)).
      rewrite npv_finite by exact Hr. f_equal.
      cbn [eventSum fold_right fst snd]. fold (eventSum r ev). rewrite Sev. ring.
    + cbv zeta. cbv zeta in El. rewrite El. reflexivity.
  - exists x, 0, l.
    split; [|split; [|split]].
    + destruct (unhedged_finals c He) as (_ & _ & _ & _ & Hcf). rewrite Hcf, Hx.
      change (baseCashFlows c x)
        with (map finiteEvent
                [(0, - (numTickets c * pricePerTicket c)); (proceedsMonth, x)]).
      rewrite npv_finite by exact Hr. f_equal.
      cbn [eventSum fold_right fst snd]. ring.
    + reflexivity.
    + exact Hs.
    + ring.
Qed.
Lemma combine_scenarios (c : Config) :
  combine (scenarios c) (scenarioCashFlows c) =
  [ (elimScenario c 0, elimCashFlows c 0); (elimScenario c 1, elimCashFlows c 1);
    (elimScenario c 2, elimCashFlows c 2); (elimScenario c 3, elimCashFlows c 3);
    (elimScenario c 4, elimCashFlows c 4); (finalsScenario c, finalsCashFlows c) ].
Proof. rewrite scenarios_eq, scenarioCashFlows_eq. reflexivity. Qed.

Lemma weighted_term (f v : R) : (Fin f / 100 * Fin v)%js = Fin (f / 100 * v).
Proof. rewrite probability_fraction. reflexivity. Qed.

Lemma timeline_events (c : Config) (w : R) (ev : list (R * R)) :
  [mkCashFlow 0 (- totalPurchase c)%js; mkCashFlow proceedsMonth (Fin w)]
  ++ map finiteEvent ev
  = map finiteEvent
      ((0, - (numTickets c * pricePerTicket c)) :: (proceedsMonth, w) :: ev).
Proof. reflexivity. Qed.

Lemma blended_npv (c : Config) (r : R) :
  -1 < r ->
  0 < totalR c ->
  (hedgeEnabled c = true -> forall s : stage, 0 < bettingOdds c s) ->
  npv (expectedCashFlows c) r = weightedNPV c r.
Proof.
  intros Hr HT Ho.
  assert (L : forall i, (i < 5)%nat -> (i < length STAGES)%nat) by (cbn; lia).
  destruct (blend_step_elim c r 0 0 [] (L 0%nat ltac:(lia)) Hr Ho I)
    as (i0 & S0 & l0 & N0 & E0 & K0 & O0).
  destruct (blend_step_elim c r 1 (0 + fairR c (nth 0 STAGES Group) / 100 * i0) l0
              (L 1%nat ltac:(lia)) Hr Ho K0)
    as (i1 & S1 & l1 & N1 & E1 & K1 & O1).
  destruct (blend_step_elim c r 2
              (0 + fairR c (nth 0 STAGES Group) / 100 * i0
               + fairR c (nth 1 STAGES Group) / 100 * i1) l1
              (L 2%nat ltac:(lia)) Hr Ho K1)
    as (i2 & S2 & l2 & N2 & E2 & K2 & O2).
  destruct (blend_step_elim c r 3
              (0 + fairR c (nth 0 STAGES Group) / 100 * i0
               + fairR c (nth 1 STAGES Group) / 100 * i1
               + fairR c (nth 2 STAGES Group) / 100 * i2) l2
              (L 3%nat ltac:(lia)) Hr Ho K2)
    as (i3 & S3 & l3 & N3 & E3 & K3 & O3).
  destruct (blend_step_elim c r 4
              (0 + fairR c (nth 0 STAGES Group) / 100 * i0
               + fairR c (nth 1 STAGES Group) / 100 * i1
               + fairR c (nth 2 STAGES Group) / 100 * i2
               + fairR c (nth 3 STAGES Group) / 100 * i3) l3
              (L 4%nat ltac:(lia)) Hr Ho K3)
    as (i4 & S4 & l4 & N4 & E4 & K4 & O4).
  destruct (blend_step_finals c r
              (0 + fairR c (nth 0 STAGES Group) / 100 * i0
               + fairR c (nth 1 STAGES Group) / 100 * i1
               + fairR c (nth 2 STAGES Group) / 100 * i2
               + fairR c (nth 3 STAGES Group) / 100 * i3
               + fairR c (nth 4 STAGES Group) / 100 * i4) l4 Hr K4)
    as (i5 & S5 & l5 & N5 & E5 & K5 & O5).
  cbn [nth STAGES] in *.
  pose proof (fairR_sum c HT) as Hsum.
  (* the blended timeline *)
  unfold expectedCashFlows. rewrite scenarios_eq. cbn [fold_left].
  change (@pair num (list (Z * num)) (Fin 0) (@nil (Z * num)))
    with (@pair num monthObj (Fin 0) (finObj [])).
  rewrite E0, E1, E2, E3, E4, E5. cbv beta iota.
  destruct (outflow_events r l5) as [F1 F2]. rewrite F1.
  rewrite timeline_events.
  rewrite npv_finite by exact Hr.
  (* the weighted scenario timelines *)
  unfold weightedNPV. rewrite combine_scenarios. cbn [fold_left fst snd].
  rewrite !elimScenario_probability, finalsScenario_probability.
  cbn [nth STAGES]. unfold probFinals.
  rewrite !elimProbs_closed, !oddsData_fairProbs, N0, N1, N2, N3, N4, N5.
  change (Fin (fairR c RunnerUp) + Fin (fairR c Winner))%js
    with (Fin (fairR c RunnerUp + fairR c Winner)).
  rewrite !weighted_term. cbn [add]. f_equal.
  cbn [eventSum fold_right fst snd].
  fold (eventSum r (map (fun e => (IZR (fst e), - snd e)) l5)).
  rewrite F2, O5, O4, O3, O2, O1, O0. cbn [objSum fold_right].
  set (X := - (numTickets c * pricePerTicket c) / discountR r 0).
  set (D := discountR r proceedsMonth).
  assert (HD : D <> 0) by apply discountR_nonzero.
  set (a0 := fairR c Group / 100). set (a1 := fairR c R32 / 100).
  set (a2 := fairR c R16 / 100). set (a3 := fairR c QF / 100).
  set (a4 := fairR c SF / 100).
  set (a5 := (fairR c RunnerUp + fairR c Winner) / 100).
  assert (A : a0 + a1 + a2 + a3 + a4 + a5 = 1) by (subst a0 a1 a2 a3 a4 a5; lra).
  replace X with ((a0 + a1 + a2 + a3 + a4 + a5) * X) at 1 by (rewrite A; ring).
  field. exact HD.
Qed.

(** X23: at every finite rate above -1, when the total implied probability
    is positive (and every stage has positive odds if hedging is enabled),
    the NPV of the blended timeline on which the expected IRR is solved is
    the probability-weighted sum of the NPVs of the six scenario timelines. *)
Theorem blended_timeline_npv (c : Config) (r : R) :
  -1 < r ->
  (totalImplied (oddsData c) >? 0)%js = true ->
  (hedgeEnabled c = true -> forall s : stage, 0 < bettingOdds c s) ->
  npv (expectedCashFlows c) r = weightedNPV c r.
Proof.
  intros Hr HT Ho. rewrite totalImplied_gtb in HT.
  destruct (Rltb_spec 0 (totalR c)) as [H|]; [|discriminate].
  now apply blended_npv.
Qed.

Lemma blended_timeline_npv_witness :
  npv (expectedCashFlows DEFAULTS) 0.01 = weightedNPV DEFAULTS 0.01.
Proof.
  apply (blended_timeline_npv DEFAULTS 0.01).
  - lra.
  - rewrite totalImplied_gtb. apply Rltb_true. exact DEFAULTS_totalR_pos.
  - intros _ s. destruct s; cbn; lra.
Defined.

(** ** Infinite odds in the P&L *)

Lemma adjustedN_invalid_odds (c : Config) (s : stage) :
  bettingOdds c s <= 0 -> adjustedN c s = PInf.
Proof.
  intros H. unfold adjustedN, condR. rewrite (fairR_invalid_odds c s H).
  replace (0 / 100 / survR c s) with 0 by (unfold Rdiv; ring).
  destruct (Rltb 0 (survR c s)); rdec; reflexivity.
Qed.

(** X24: with hedging enabled and a rate of at least -100%, a stage whose
    odds are zero or negative gets adjusted odds [Infinity], and the scenario
    of elimination at that stage then has hedge result and net P&L
    [Infinity] when its stake is positive, and [NaN] when its stake is 0. *)
Theorem infinite_odds_reach_netPL (c : Config) (i : nat) :
  hedgeEnabled c = true ->
  -100 <= annualOpportunityCost c ->
  (i < length STAGES)%nat ->
  bettingOdds c (nth i STAGES Group) <= 0 ->
  adjustedOdds (stageOdds c (nth i STAGES Group)) = PInf /\
  (0 < hedgeStakes c (nth i STAGES Group) ->
   hedgeResult (elimScenario c i) = PInf /\ netPL (elimScenario c i) = PInf) /\
  (hedgeStakes c (nth i STAGES Group) = 0 ->
   hedgeResult (elimScenario c i) = NaN /\ netPL (elimScenario c i) = NaN).
Proof.
  intros He Hr Hi Ho.
  pose proof (adjustedN_invalid_odds c _ Ho) as Hadj.
  destruct (carryingCost_fin c Hr) as [cc Hcc].
  destruct (hedgeCarryCostPerStage_fin c (firstn (i + 1) STAGES) Hr) as [hc Hhc].
  assert (HR : hedgeResult (elimScenario c i) =
               (hedgeStakes c (nth i STAGES Group)
                * (adjustedOdds (stageOdds c (nth i STAGES Group)) - 1)
                - sumStakes c (firstn i STAGES))%js).
  { unfold elimScenario, elimIteration. cbn [fst hedgeResult]. rewrite He. reflexivity. }
  rewrite HR, elimScenario_netPL by exact He.
  rewrite Hcc, Hhc, stageOdds_adjustedOdds, Hadj, sumStakes_fin.
  split; [reflexivity|].
  set (w := hedgeStakes c (nth i STAGES Group)).
  split.
  - intros Hw. cbn [sub neg add mul]. unfold inf_of_sign. rdec. split; reflexivity.
  - intros ->. cbn [sub neg add mul]. unfold inf_of_sign. rdec. split; reflexivity.
Qed.

Lemma infinite_odds_reach_netPL_witness :
  adjustedOdds (stageOdds noGroupOdds Group) = PInf /\
  hedgeResult (elimScenario noGroupOdds 0) = PInf /\
  netPL (elimScenario noGroupOdds 0) = PInf.
Proof.
  destruct (infinite_odds_reach_netPL noGroupOdds 0) as (H1 & H2 & _).
  - reflexivity.
  - cbn. lra.
  - cbn. lia.
  - cbn. lra.
  - split; [exact H1|]. apply H2. cbn. lra.
Defined.
